(** * Royalty calculator: contract merge, statement ingestion, song matching
      and payment computation

    A shallow embedding of [src/parser/royalty_calculator.py] (class
    [RoyaltyCalculator]) and of the dataclasses of
    [src/parser/contract_parser.py], followed by the properties the
    specification states about them.

    Modelling conventions.
    - Python [str] values are strings of ASCII text: [lower] and [strip]
      are those of [str] on code points below 128 (letters A-Z, the ASCII
      white space of [str.isspace]).  The Song Matcher is also given over
      arbitrary text primitives ([AnyText]).
    - Python [float] is IEEE binary64, i.e. Rocq's primitive [float];
      [==] on floats is [PrimFloat.eqb] (so [nan] differs from itself and
      [0.0 == -0.0]).
    - A [dict] is an association list in insertion order, a [set] of
      strings a [gset string]; the set of share keys, whose members carry a
      float, is a list searched with Python's [==].
    - Exceptions are values of [exn]; a function that may raise returns a
      [result].  The [print] calls are left out.
    - The fields of the dataclasses have their annotated types: [str] is
      [string], [float] is [float], [Optional[str]] is [option string].
    - A global name is resolved when the line that mentions it runs; the
      functions that mention one take the module namespace as an
      argument, and [module_globals] is the namespace of the file. *)

From Stdlib Require Import Floats ZArith String Ascii List Bool Lia.
From stdpp Require Import gmap strings.
Import ListNotations.

Local Open Scope string_scope.
Local Open Scope list_scope.

(** ** Python strings *)

Module PyStr.

(** [c.isspace()] for a code point below 128. *)
Definition is_space (c : ascii) : bool :=
  let n := nat_of_ascii c in
  ((9 <=? n)%nat && (n <=? 13)%nat) || ((28 <=? n)%nat && (n <=? 32)%nat).

Definition lower_char (c : ascii) : ascii :=
  let n := nat_of_ascii c in
  if (65 <=? n)%nat && (n <=? 90)%nat then ascii_of_nat (n + 32) else c.

(** [s.lower()] *)
Fixpoint lower (s : string) : string :=
  match s with
  | EmptyString => EmptyString
  | String c s' => String (lower_char c) (lower s')
  end.

Fixpoint lstrip (s : string) : string :=
  match s with
  | EmptyString => EmptyString
  | String c s' => if is_space c then lstrip s' else s
  end.

Fixpoint rstrip (s : string) : string :=
  match s with
  | EmptyString => EmptyString
  | String c s' =>
      match rstrip s' with
      | EmptyString => if is_space c then EmptyString else String c EmptyString
      | r => String c r
      end
  end.

(** [s.strip()] *)
Definition strip (s : string) : string := rstrip (lstrip s).

(** [needle in hay] *)
Fixpoint contains (needle hay : string) : bool :=
  String.prefix needle hay ||
  match hay with
  | EmptyString => false
  | String _ hay' => contains needle hay'
  end.

(** Truth value of a string: [bool(s)]. *)
Definition truthy (s : string) : bool :=
  match s with EmptyString => false | _ => true end.

(** The string holds white space only ([not s.strip()]). *)
Fixpoint blank (s : string) : bool :=
  match s with
  | EmptyString => true
  | String c s' => is_space c && blank s'
  end.

(** Does the text after an opening parenthesis reach [")"] before a line
    break?  ([.] in the pattern does not match a newline.) *)
Fixpoint closes (s : string) : bool :=
  match s with
  | EmptyString => false
  | String c s' =>
      if Ascii.eqb c ")" then true
      else if Ascii.eqb c "010" then false
      else closes s'
  end.

(** [re.sub(r"\(.*?\)", "", s)]: every leftmost, shortest parenthesised
    run is removed; [inside] says that an opening parenthesis whose match
    is known to close is being skipped. *)
Fixpoint sub_parens (inside : bool) (s : string) : string :=
  match s with
  | EmptyString => EmptyString
  | String c s' =>
      if inside then
        if Ascii.eqb c ")" then sub_parens false s' else sub_parens true s'
      else if Ascii.eqb c "(" && closes s' then sub_parens true s'
      else String c (sub_parens false s')
  end.

Definition re_sub_parens (s : string) : string := sub_parens false s.

(** ["\n".join(parts)] *)
Fixpoint join_lines (parts : list string) : string :=
  match parts with
  | [] => ""
  | [p] => p
  | p :: rest => p ++ String "010" (join_lines rest)
  end.

End PyStr.

(** ** Python floats *)

Module PyFloat.

(** [x == y] *)
Definition eq (x y : float) : bool := PrimFloat.eqb x y.

(** [bool(x)]: zero of either sign is false, [nan] is true. *)
Definition truthy (x : float) : bool := negb (PrimFloat.eqb x 0%float).

(** The integer nearest to [num / den] ([den > 0]), ties to even. *)
Definition div_half_even (num den : Z) : Z :=
  let q := (num / den)%Z in
  let r := (num mod den)%Z in
  match (2 * r ?= den)%Z with
  | Lt => q
  | Gt => (q + 1)%Z
  | Eq => if Z.even q then q else (q + 1)%Z
  end.

(** [round(x, 2)]: the exact value of [x] is rounded to a whole number of
    hundredths, ties to even, and the nearest float to that decimal is
    returned; infinities and [nan] round to themselves. *)
Definition round2 (x : float) : float :=
  match Prim2SF x with
  | S754_finite s m e =>
      let h :=
        match e with
        | Zneg k => div_half_even (Zpos m * 100) (Z.pow_pos 2 k)
        | _ => (Zpos m * 100 * 2 ^ e)%Z
        end in
      match h with
      | Zpos hm =>
          SF2Prim (SFdiv prec emax (S754_finite s hm 0) (S754_finite false 100 0))
      | _ => SF2Prim (S754_zero s)
      end
  | _ => x
  end.

End PyFloat.

(** ** Exceptions *)

(** The [raise ValueError(...)] statements of the module, by message. *)
Inductive message :=
| could_not_auto_detect_title_column
| could_not_auto_detect_payable_column
| could_not_find_required_columns
| no_works_found
| no_royalty_share_data_found
| no_songs_found_in_statement
| no_valid_contracts.

Inductive exn :=
| NameError (name : string)        (* name 'x' is not defined *)
| IndexError                       (* tuple index out of range *)
| OverflowError                    (* int too large to convert to float *)
| WorkbookError                    (* what opening the workbook raises *)
| ValueError (msg : message)
| Exception (cause : exn).         (* "Error reading royalty statement: ..." *)

Inductive result (A : Type) :=
| Ok (a : A)
| Err (e : exn).

Arguments Ok {A} a.
Arguments Err {A} e.

#[global] Instance result_ret : MRet result := fun A a => Ok a.

#[global] Instance result_bind : MBind result := fun A B k r =>
  match r with
  | Ok a => k a
  | Err e => Err e
  end.

(** The specification's error taxonomy, read on the exceptions the module
    raises: all three are [ValueError]s told apart by their message. *)
Definition ColumnNotFoundError (e : exn) : Prop :=
  e = ValueError could_not_auto_detect_title_column
  \/ e = ValueError could_not_auto_detect_payable_column
  \/ e = ValueError could_not_find_required_columns.

Definition InvalidContractDataError (e : exn) : Prop :=
  e = ValueError no_works_found \/ e = ValueError no_royalty_share_data_found.

Definition EmptyStatementError (e : exn) : Prop :=
  e = ValueError no_songs_found_in_statement.

(** ** Module namespace *)

(** The names bound at module level when a method of [RoyaltyCalculator]
    runs: the imports of lines 15-27 and the definitions of the file. *)
Definition module_globals : list string :=
  [ "openpyxl"; "Dict"; "List"; "Optional"; "dataclass"; "asdict"; "os";
    "OpenAI"; "load_dotenv"; "st"; "MusicContractParser"; "ContractData";
    "Party"; "Work"; "RoyaltyShare"; "RoyaltyPayment"; "RoyaltyCalculator";
    "main" ].

(** The namespace the module would have with [import re] added. *)
Definition globals_with_re : list string := "re" :: module_globals.

Definition bound (globals : list string) (name : string) : bool :=
  existsb (String.eqb name) globals.

(** Evaluating a global name. *)
Definition lookup_global (globals : list string) (name : string) : result unit :=
  if bound globals name then Ok tt else Err (NameError name).

(** ** Data model ([contract_parser.py], lines 33-65; [RoyaltyPayment]) *)

Module Party.
Record t := mk { name : string; role : string; additional_info : option string }.
End Party.

Module Work.
Record t := mk { title : string; work_type : string; additional_info : option string }.
End Work.

Module RoyaltyShare.
Record t := mk {
  party_name : string;
  royalty_type : string;
  percentage : float;
  terms : option string }.
End RoyaltyShare.

Module ContractData.
Record t := mk {
  parties : list Party.t;
  works : list Work.t;
  royalty_shares : list RoyaltyShare.t;
  contract_summary : option string;
  raw_text : option string }.
End ContractData.

Module RoyaltyPayment.
Record t := mk {
  song_title : string;
  party_name : string;
  role : string;
  royalty_type : string;
  percentage : float;
  total_royalty : float;
  amount_to_pay : float }.
End RoyaltyPayment.

(** ** Statement Ingestor *)

(** A worksheet cell value.  A text cell carries what [float(s)] returns
    ([None] when it raises [ValueError]) and a numeric cell what [str(x)]
    returns, so that both conversions are part of the input.  A numeric
    cell is a float or an int that [float] converts; [CBig] is an int
    beyond the range of [float], given by its decimal text. *)
Inductive cell :=
| CNone
| CStr (s : string) (as_float : option float)
| CNum (x : float) (as_str : string)
| CBig (as_str : string).

(** What [float(v)] does: it returns a float, raises the [ValueError] or
    [TypeError] that the row loop catches, or raises [OverflowError]. *)
Inductive conversion :=
| Converted (x : float)
| Refused
| TooLarge.

(** The active sheet: row 1 and the rows from row 2 on. *)
Record sheet := { header_row : list cell; data_rows : list (list cell) }.

(** A [Dict[str, float]] in insertion order. *)
Definition dict := list (string * float).

Module Cell.

(** [bool(v)] *)
Definition truthy (v : cell) : bool :=
  match v with
  | CNone => false
  | CStr s _ => PyStr.truthy s
  | CNum x _ => PyFloat.truthy x
  | CBig _ => true
  end.

(** [v is not None] *)
Definition is_not_none (v : cell) : bool :=
  match v with CNone => false | _ => true end.

(** [str(v)] *)
Definition str (v : cell) : string :=
  match v with
  | CNone => "None"
  | CStr s _ => s
  | CNum _ r => r
  | CBig r => r
  end.

(** [float(v)] *)
Definition float (v : cell) : conversion :=
  match v with
  | CNone => Refused
  | CStr _ (Some x) => Converted x
  | CStr _ None => Refused
  | CNum x _ => Converted x
  | CBig _ => TooLarge
  end.

End Cell.

Module Dict.

(** [d.get(k, default)] *)
Fixpoint get (d : dict) (k : string) (default : float) : float :=
  match d with
  | [] => default
  | (k', v) :: d' => if String.eqb k' k then v else get d' k default
  end.

(** [d[k] = v]: an existing key keeps its place, a new one goes last. *)
Fixpoint set (d : dict) (k : string) (v : float) : dict :=
  match d with
  | [] => [(k, v)]
  | (k', v') :: d' =>
      if String.eqb k' k then (k', v) :: d' else (k', v') :: set d' k v
  end.

End Dict.

(** [l.index(x)], [None] for the [ValueError] of a missing element. *)
Fixpoint list_index (l : list string) (x : string) : option nat :=
  match l with
  | [] => None
  | y :: l' =>
      if String.eqb y x then Some 0
      else match list_index l' x with Some i => Some (S i) | None => None end
  end.

(** Lines 74-77: the headers are the truthy cells of row 1. *)
Fixpoint extract_headers (row : list cell) : list string :=
  match row with
  | [] => []
  | c :: row' =>
      if Cell.truthy c
      then PyStr.lower (PyStr.strip (Cell.str c)) :: extract_headers row'
      else extract_headers row'
  end.

Definition title_variations : list string :=
  [ "release title"; "title"; "song title"; "track title";
    "song name"; "track name"; "release name"; "track" ].

Fixpoint _find_title_column (headers : list string) : result string :=
  match headers with
  | [] => Err (ValueError could_not_auto_detect_title_column)
  | header :: headers' =>
      if existsb (fun var => PyStr.contains var header) title_variations
      then Ok header
      else _find_title_column headers'
  end.

Definition priority_variations : list string :=
  [ "net payable"; "net payment"; "total payable"; "net revenue"; "net amount" ].

Definition general_variations : list string :=
  [ "payable"; "amount"; "earnings"; "payment" ].

(** The inner loop of the first pass (lines 143-146): does some priority
    variation hit this header? *)
Fixpoint priority_hit (vars : list string) (header : string) : bool :=
  match vars with
  | [] => false
  | var :: vars' =>
      if String.eqb var header || PyStr.contains var header then true
      else priority_hit vars' header
  end.

(** The inner loop of the second pass (lines 152-156). *)
Fixpoint general_hit (vars : list string) (header : string) : bool :=
  match vars with
  | [] => false
  | var :: vars' =>
      if PyStr.contains var header
         && negb (PyStr.contains "withheld" header)
         && negb (PyStr.contains "deduction" header)
         && negb (PyStr.contains "fee" header)
      then true
      else general_hit vars' header
  end.

Fixpoint first_pass (headers : list string) : option string :=
  match headers with
  | [] => None
  | header :: headers' =>
      if priority_hit priority_variations header then Some header
      else first_pass headers'
  end.

Fixpoint second_pass (headers : list string) : option string :=
  match headers with
  | [] => None
  | header :: headers' =>
      if general_hit general_variations header then Some header
      else second_pass headers'
  end.

Definition _find_payable_column (headers : list string) : result string :=
  match first_pass headers with
  | Some header => Ok header
  | None =>
      match second_pass headers with
      | Some header => Ok header
      | None => Err (ValueError could_not_auto_detect_payable_column)
      end
  end.

(** Lines 100-108: sum the payable cell of every row under its title.
    A row too short for an index raises [IndexError]; the [OverflowError]
    of [float] is not among the exceptions line 107 catches. *)
Fixpoint sum_rows (title_idx payable_idx : nat) (rows : list (list cell))
    (song_totals : dict) : result dict :=
  match rows with
  | [] => Ok song_totals
  | row :: rows' =>
      match nth_error row title_idx with
      | None => Err IndexError
      | Some tcell =>
          if Cell.truthy tcell then
            match nth_error row payable_idx with
            | None => Err IndexError
            | Some pcell =>
                if Cell.is_not_none pcell then
                  let title := PyStr.strip (Cell.str tcell) in
                  match Cell.float pcell with
                  | Converted amount =>
                      sum_rows title_idx payable_idx rows'
                        (Dict.set song_totals title
                           (Dict.get song_totals title 0 + amount)%float)
                  | Refused => sum_rows title_idx payable_idx rows' song_totals
                  | TooLarge => Err OverflowError
                  end
                else sum_rows title_idx payable_idx rows' song_totals
            end
          else sum_rows title_idx payable_idx rows' song_totals
      end
  end.

(** The body of the outer [try] of [read_royalty_statement]. *)
Definition read_body (sh : sheet) (title_column payable_column : option string)
    : result dict :=
  let headers := extract_headers (header_row sh) in
  title_column ←
    match title_column with
    | None => _find_title_column headers
    | Some c => Ok (PyStr.lower c)
    end;
  payable_column ←
    match payable_column with
    | None => _find_payable_column headers
    | Some c => Ok (PyStr.lower c)
    end;
  match list_index headers title_column, list_index headers payable_column with
  | Some title_idx, Some payable_idx =>
      sum_rows title_idx payable_idx (data_rows sh) []
  | _, _ => Err (ValueError could_not_find_required_columns)
  end.

(** [read_royalty_statement] on a file whose workbook opens with the
    active sheet [sh]: whatever the body raises is raised again wrapped in
    a plain [Exception] (lines 115-116). *)
Definition read_royalty_statement (sh : sheet)
    (title_column payable_column : option string) : result dict :=
  match read_body sh title_column payable_column with
  | Ok song_totals => Ok song_totals
  | Err e => Err (Exception e)
  end.

(** [read_royalty_statement] on any path: [workbook] is the active sheet
    of the file, [None] when lines 70-71 raise (no such file, not a
    workbook); that exception is wrapped like the others. *)
Definition read_royalty_statement_file (workbook : option sheet)
    (title_column payable_column : option string) : result dict :=
  match workbook with
  | Some sh => read_royalty_statement sh title_column payable_column
  | None => Err (Exception WorkbookError)
  end.

(** ** Contract Merger *)

(** The text [normalize_name] computes for a non-empty name (line 248). *)
Definition clean (name : string) : string :=
  PyStr.lower (PyStr.strip (PyStr.re_sub_parens name)).

(** The local helper [normalize_name] (lines 244-249).  The name [re] is
    looked up in the module namespace when line 248 runs. *)
Definition normalize_name (globals : list string) (name : string) : result string :=
  if negb (PyStr.truthy name) then Ok ""
  else
    _ ← lookup_global globals "re";
    Ok (clean name).

(** The identity key of a royalty share (lines 274-278). *)
Definition share_key : Type := string * string * float.

(** [k1 == k2] on two freshly built key tuples. *)
Definition key_eq (k1 k2 : share_key) : bool :=
  let '(n1, t1, p1) := k1 in
  let '(n2, t2, p2) := k2 in
  String.eqb n1 n2 && String.eqb t1 t2 && PyFloat.eq p1 p2.

(** [key in seen_shares] *)
Definition key_in (k : share_key) (seen : list share_key) : bool :=
  existsb (key_eq k) seen.

(** Lines 259-263. *)
Fixpoint merge_parties (globals : list string) (ps : list Party.t)
    (merged_parties : list Party.t) (seen_parties : gset string)
    : result (list Party.t * gset string) :=
  match ps with
  | [] => Ok (merged_parties, seen_parties)
  | p :: ps' =>
      norm_name ← normalize_name globals (Party.name p);
      if PyStr.truthy norm_name && negb (bool_decide (norm_name ∈ seen_parties))
      then merge_parties globals ps'
             (merged_parties ++ [p]) (seen_parties ∪ {[norm_name]})
      else merge_parties globals ps' merged_parties seen_parties
  end.

(** Lines 266-270. *)
Fixpoint merge_works (ws : list Work.t)
    (merged_works : list Work.t) (seen_works : gset string)
    : list Work.t * gset string :=
  match ws with
  | [] => (merged_works, seen_works)
  | w :: ws' =>
      let norm_title := PyStr.lower (PyStr.strip (Work.title w)) in
      if PyStr.truthy norm_title && negb (bool_decide (norm_title ∈ seen_works))
      then merge_works ws' (merged_works ++ [w]) (seen_works ∪ {[norm_title]})
      else merge_works ws' merged_works seen_works
  end.

(** Lines 273-281. *)
Fixpoint merge_shares (globals : list string) (rs : list RoyaltyShare.t)
    (merged_royalty_shares : list RoyaltyShare.t) (seen_shares : list share_key)
    : result (list RoyaltyShare.t * list share_key) :=
  match rs with
  | [] => Ok (merged_royalty_shares, seen_shares)
  | r :: rs' =>
      n ← normalize_name globals (RoyaltyShare.party_name r);
      let key : share_key :=
        (n,
         PyStr.strip (PyStr.lower (RoyaltyShare.royalty_type r)),
         PyFloat.round2 (RoyaltyShare.percentage r)) in
      if negb (key_in key seen_shares)
      then merge_shares globals rs'
             (merged_royalty_shares ++ [r]) (seen_shares ++ [key])
      else merge_shares globals rs' merged_royalty_shares seen_shares
  end.

(** The local variables of [merge_contracts] (lines 238-253). *)
Record merge_state := {
  merged_parties : list Party.t;
  merged_works : list Work.t;
  merged_royalty_shares : list RoyaltyShare.t;
  summaries : list string;
  seen_parties : gset string;
  seen_works : gset string;
  seen_shares : list share_key }.

Definition merge_init : merge_state :=
  {| merged_parties := []; merged_works := []; merged_royalty_shares := [];
     summaries := []; seen_parties := ∅; seen_works := ∅; seen_shares := [] |}.

(** One turn of the loop over the contracts (lines 255-281). *)
Definition merge_contract (globals : list string) (st : merge_state)
    (contract : ContractData.t) : result merge_state :=
  let summaries' :=
    summaries st ++ [default "" (ContractData.contract_summary contract)] in
  '(mp, sp) ← merge_parties globals (ContractData.parties contract)
                (merged_parties st) (seen_parties st);
  let '(mw, sw) := merge_works (ContractData.works contract)
                     (merged_works st) (seen_works st) in
  '(mr, sr) ← merge_shares globals (ContractData.royalty_shares contract)
                (merged_royalty_shares st) (seen_shares st);
  Ok {| merged_parties := mp; merged_works := mw; merged_royalty_shares := mr;
        summaries := summaries'; seen_parties := sp; seen_works := sw;
        seen_shares := sr |}.

Fixpoint merge_loop (globals : list string) (contracts : list ContractData.t)
    (st : merge_state) : result merge_state :=
  match contracts with
  | [] => Ok st
  | contract :: contracts' =>
      st' ← merge_contract globals st contract;
      merge_loop globals contracts' st'
  end.

(** [merge_contracts] (lines 231-292), run in the namespace [globals]. *)
Definition merge_contracts (globals : list string)
    (contracts : list ContractData.t) : result ContractData.t :=
  st ← merge_loop globals contracts merge_init;
  let merged_summary :=
    PyStr.join_lines
      (List.filter (fun s => PyStr.truthy (PyStr.strip s)) (summaries st)) in
  Ok (ContractData.mk (merged_parties st) (merged_works st)
        (merged_royalty_shares st) (Some merged_summary) None).

(** ** Song Matcher *)

(** The first loop of [_find_matching_song] (lines 435-437). *)
Fixpoint exact_match (song_title_lower : string) (items : dict)
    : option (string * float) :=
  match items with
  | [] => None
  | (title, amount) :: items' =>
      if String.eqb (PyStr.strip (PyStr.lower title)) song_title_lower
      then Some (title, amount)
      else exact_match song_title_lower items'
  end.

(** The second loop (lines 440-442). *)
Fixpoint partial_match (song_title_lower : string) (items : dict)
    : option (string * float) :=
  match items with
  | [] => None
  | (title, amount) :: items' =>
      if PyStr.contains song_title_lower (PyStr.lower title)
         || PyStr.contains (PyStr.lower title) song_title_lower
      then Some (title, amount)
      else partial_match song_title_lower items'
  end.

(** [_find_matching_song]; the result is the tuple the method returns,
    [(None, 0.0)] when nothing matches. *)
Definition _find_matching_song (song_title : string) (song_totals : dict)
    : option string * float :=
  let song_title_lower := PyStr.strip (PyStr.lower song_title) in
  match exact_match song_title_lower song_totals with
  | Some (title, amount) => (Some title, amount)
  | None =>
      match partial_match song_title_lower song_totals with
      | Some (title, amount) => (Some title, amount)
      | None => (None, 0%float)
      end
  end.

(** ** The Song Matcher over any text primitives

    The same method with [str.lower], [str.strip] and [in] as parameters:
    what is proved of it holds whatever these do on text outside the ASCII
    range.  [_find_matching_song] above is its instance at [PyStr]. *)

Module AnyText.

Section Matcher.

Variables (lower strip : string -> string) (contains : string -> string -> bool).

Fixpoint exact_match (song_title_lower : string) (items : dict)
    : option (string * float) :=
  match items with
  | [] => None
  | (title, amount) :: items' =>
      if String.eqb (strip (lower title)) song_title_lower
      then Some (title, amount)
      else exact_match song_title_lower items'
  end.

Fixpoint partial_match (song_title_lower : string) (items : dict)
    : option (string * float) :=
  match items with
  | [] => None
  | (title, amount) :: items' =>
      if contains song_title_lower (lower title)
         || contains (lower title) song_title_lower
      then Some (title, amount)
      else partial_match song_title_lower items'
  end.

Definition _find_matching_song (song_title : string) (song_totals : dict)
    : option string * float :=
  let song_title_lower := strip (lower song_title) in
  match exact_match song_title_lower song_totals with
  | Some (title, amount) => (Some title, amount)
  | None =>
      match partial_match song_title_lower song_totals with
      | Some (title, amount) => (Some title, amount)
      | None => (None, 0%float)
      end
  end.

(** The two stages as the specification words them: the first statement
    title whose normal form is the normalized work title; failing that,
    the first one such that the normalized work title is a substring of
    the lower-cased statement title or the other way round. *)
Definition exact_stage (work : string) (item : string * float) : bool :=
  String.eqb (strip (lower (fst item))) work.

Definition substring_stage (work : string) (item : string * float) : bool :=
  contains work (lower (fst item)) || contains (lower (fst item)) work.

Definition song_matcher (work_title : string) (aggregate : dict)
    : option string * float :=
  let work := strip (lower work_title) in
  match List.find (exact_stage work) aggregate with
  | Some (title, total) => (Some title, total)
  | None =>
      match List.find (substring_stage work) aggregate with
      | Some (title, total) => (Some title, total)
      | None => (None, 0%float)
      end
  end.

End Matcher.

End AnyText.

(** ** Payment Calculator *)

(** [bool(matching_song)]: [None] and the empty title are false. *)
Definition matching_truthy (matching_song : option string) : bool :=
  match matching_song with
  | None => false
  | Some t => PyStr.truthy t
  end.

Definition is_streaming (share : RoyaltyShare.t) : bool :=
  PyStr.contains "streaming" (PyStr.lower (RoyaltyShare.royalty_type share)).

(** [next((p for p in parties if p.name.lower() == name.lower()), None)]
    followed by [party.role if party else "Unknown"]. *)
Definition role_of (parties : list Party.t) (party_name : string) : string :=
  match
    List.find
      (fun p => String.eqb (PyStr.lower (Party.name p)) (PyStr.lower party_name))
      parties
  with
  | Some party => Party.role party
  | None => "Unknown"
  end.

(** The body of the loop over the streaming shares (lines 352-370). *)
Definition payment (contract_data : ContractData.t) (work : Work.t)
    (total_royalty : float) (share : RoyaltyShare.t) : RoyaltyPayment.t :=
  let amount_to_pay :=
    (total_royalty * (RoyaltyShare.percentage share / 100))%float in
  let role :=
    role_of (ContractData.parties contract_data) (RoyaltyShare.party_name share) in
  RoyaltyPayment.mk (Work.title work) (RoyaltyShare.party_name share) role
    (RoyaltyShare.royalty_type share) (RoyaltyShare.percentage share)
    total_royalty amount_to_pay.

(** The loop over the works (lines 344-375, and 197-226), appending to
    [payments]. *)
Fixpoint payment_loop (contract_data : ContractData.t) (song_totals : dict)
    (streaming_shares : list RoyaltyShare.t) (works : list Work.t)
    (payments : list RoyaltyPayment.t) : list RoyaltyPayment.t :=
  match works with
  | [] => payments
  | work :: works' =>
      let '(matching_song, total_royalty) :=
        _find_matching_song (Work.title work) song_totals in
      if matching_truthy matching_song
      then payment_loop contract_data song_totals streaming_shares works'
             (payments ++ map (payment contract_data work total_royalty)
                            streaming_shares)
      else payment_loop contract_data song_totals streaming_shares works' payments
  end.

(** [calculate_payments_from_data] (lines 294-379); the statement file is
    given by its active sheet. *)
Definition calculate_payments_from_data (contract_data : ContractData.t)
    (statement : sheet) (title_column payable_column : option string)
    : result (list RoyaltyPayment.t) :=
  match ContractData.works contract_data with
  | [] => Err (ValueError no_works_found)
  | _ =>
  match ContractData.royalty_shares contract_data with
  | [] => Err (ValueError no_royalty_share_data_found)
  | _ =>
      song_totals ← read_royalty_statement statement title_column payable_column;
      match song_totals with
      | [] => Err (ValueError no_songs_found_in_statement)
      | _ =>
          let streaming_shares :=
            List.filter is_streaming (ContractData.royalty_shares contract_data) in
          match streaming_shares with
          | [] => Ok []
          | _ =>
              Ok (payment_loop contract_data song_totals streaming_shares
                    (ContractData.works contract_data) [])
          end
      end
  end
  end.

(** [calculate_payments] (lines 160-228); the contract file is given by
    what [parse_contract] returns for it. *)
Definition calculate_payments (parsed : result ContractData.t)
    (statement : sheet) (title_column payable_column : option string)
    : result (list RoyaltyPayment.t) :=
  contract_data ← parsed;
  song_totals ← read_royalty_statement statement title_column payable_column;
  let streaming_shares :=
    List.filter is_streaming (ContractData.royalty_shares contract_data) in
  Ok (payment_loop contract_data song_totals streaming_shares
        (ContractData.works contract_data) []).

(** Lines 401-407: the records of the contracts that parsed; a contract
    whose parse raises is skipped with a warning. *)
Fixpoint parsed_contracts (parses : list (result ContractData.t))
    : list ContractData.t :=
  match parses with
  | [] => []
  | Ok data :: parses' => data :: parsed_contracts parses'
  | Err _ :: parses' => parsed_contracts parses'
  end.

(** [calculate_payments_from_contracts] (lines 381-423); each contract
    file is given by what [parse_contract] returns for it. *)
Definition calculate_payments_from_contracts (globals : list string)
    (parses : list (result ContractData.t)) (statement : sheet)
    : result (list RoyaltyPayment.t) :=
  match parsed_contracts parses with
  | [] => Err (ValueError no_valid_contracts)
  | all_contracts_data =>
      merged_data ← merge_contracts globals all_contracts_data;
      calculate_payments_from_data merged_data statement None None
  end.

(** ** The specification's wording, for comparison with the code *)

Module Spec.

(** [normalize(text)] of the Contract Merger: empty for empty input,
    otherwise parenthesised annotations removed, trimmed, lower-cased. *)
Definition normalize (text : string) : string :=
  if negb (PyStr.truthy text) then "" else clean text.

(** Identity of a Work: the trimmed, lower-cased title. *)
Definition work_key (w : Work.t) : string :=
  PyStr.lower (PyStr.strip (Work.title w)).

(** Identity of a Party. *)
Definition party_key (p : Party.t) : string := normalize (Party.name p).

(** The RoyaltyShare key as the specification words it: both the party
    name and the royalty type go through [normalize]. *)
Definition share_key (r : RoyaltyShare.t) : share_key :=
  (normalize (RoyaltyShare.party_name r),
   normalize (RoyaltyShare.royalty_type r),
   PyFloat.round2 (RoyaltyShare.percentage r)).

(** Payable-column detection in two passes, with the synonyms and the
    rejected words as the specification lists them. *)
Definition high_precision_synonyms : list string :=
  [ "net payable"; "net payment"; "total payable"; "net revenue"; "net amount" ].

Definition loose_synonyms : list string :=
  [ "payable"; "amount"; "earnings"; "payment" ].

Definition excluded : list string := [ "withheld"; "deduction"; "fee" ].

(** Pass 1: the header equals or contains a high-precision synonym. *)
Definition pass1 (header : string) : bool :=
  existsb (fun var => String.eqb var header || PyStr.contains var header)
    high_precision_synonyms.

(** Pass 2: the header contains a loose synonym and no rejected word. *)
Definition pass2 (header : string) : bool :=
  existsb (fun var => PyStr.contains var header) loose_synonyms
  && negb (existsb (fun word => PyStr.contains word header) excluded).

Definition payable_column (headers : list string) : result string :=
  match List.find pass1 headers with
  | Some header => Ok header
  | None =>
      match List.find pass2 headers with
      | Some header => Ok header
      | None => Err (ValueError could_not_auto_detect_payable_column)
      end
  end.

(** The two stages of the Song Matcher on a normalized work title. *)
Definition exact_stage (work : string) (item : string * float) : bool :=
  String.eqb (PyStr.strip (PyStr.lower (fst item))) work.

Definition substring_stage (work : string) (item : string * float) : bool :=
  PyStr.contains work (PyStr.lower (fst item))
  || PyStr.contains (PyStr.lower (fst item)) work.

Definition song_matcher (work_title : string) (aggregate : dict)
    : option string * float :=
  let work := PyStr.strip (PyStr.lower work_title) in
  match List.find (exact_stage work) aggregate with
  | Some (title, total) => (Some title, total)
  | None =>
      match List.find (substring_stage work) aggregate with
      | Some (title, total) => (Some title, total)
      | None => (None, 0%float)
      end
  end.

End Spec.

(** The key [merge_contracts] builds for a share whose party name
    normalizes without error: the royalty type is lower-cased and trimmed
    only. *)
Definition code_share_key (r : RoyaltyShare.t) : share_key :=
  (Spec.normalize (RoyaltyShare.party_name r),
   PyStr.strip (PyStr.lower (RoyaltyShare.royalty_type r)),
   PyFloat.round2 (RoyaltyShare.percentage r)).

(** The Song Matcher returned a statement title for this work. *)
Definition matcher_matches (song_totals : dict) (work : Work.t) : bool :=
  match fst (_find_matching_song (Work.title work) song_totals) with
  | Some _ => true
  | None => false
  end.

(** The title the Song Matcher returned is a non-empty string, which is
    what the calculator tests before it emits payments. *)
Definition matcher_pays (song_totals : dict) (work : Work.t) : bool :=
  matching_truthy (fst (_find_matching_song (Work.title work) song_totals)).

(** One payment per streaming share for a work, the total being the one
    the Song Matcher returned. *)
Definition payments_of_work (contract_data : ContractData.t)
    (song_totals : dict) (work : Work.t) : list RoyaltyPayment.t :=
  map (payment contract_data work
         (snd (_find_matching_song (Work.title work) song_totals)))
    (List.filter is_streaming (ContractData.royalty_shares contract_data)).

(** The three lists a merge is compared on. *)
Definition merged_lists (r : result ContractData.t)
    : result (list Party.t * list Work.t * list RoyaltyShare.t) :=
  c ← r;
  Ok (ContractData.parties c, ContractData.works c, ContractData.royalty_shares c).

(** The amount of a payment is its total times the hundredth of its
    percentage, as line 352 computes it. *)
Definition exact_amount (p : RoyaltyPayment.t) : Prop :=
  RoyaltyPayment.amount_to_pay p
  = (RoyaltyPayment.total_royalty p * (RoyaltyPayment.percentage p / 100))%float.

(** ** Invariants of the merge loop *)

(** No key of the list is [==] to a key before it. *)
Definition distinct_keys (keys : list share_key) : Prop :=
  forall i j ki kj,
    i < j -> keys !! i = Some ki -> keys !! j = Some kj -> key_eq kj ki = false.

(** The merged lists hold one entry per seen key. *)
Record merge_inv (st : merge_state) : Prop := {
  inv_parties_nodup : NoDup (Spec.party_key <$> merged_parties st);
  inv_parties_seen :
    forall k, k ∈ seen_parties st <-> k ∈ Spec.party_key <$> merged_parties st;
  inv_works_nodup : NoDup (Spec.work_key <$> merged_works st);
  inv_works_seen :
    forall k, k ∈ seen_works st <-> k ∈ Spec.work_key <$> merged_works st;
  inv_shares_seen :
    seen_shares st = code_share_key <$> merged_royalty_shares st;
  inv_shares_distinct : distinct_keys (seen_shares st) }.

(** The rounded percentage of the share is a number: it is [==] to
    itself, which [nan] is not. *)
Definition rounds_to_number (r : RoyaltyShare.t) : Prop :=
  PyFloat.eq (PyFloat.round2 (RoyaltyShare.percentage r))
    (PyFloat.round2 (RoyaltyShare.percentage r)) = true.

(** The same as a test. *)
Definition number_share (r : RoyaltyShare.t) : bool :=
  PyFloat.eq (PyFloat.round2 (RoyaltyShare.percentage r))
    (PyFloat.round2 (RoyaltyShare.percentage r)).

(** Every entry of the record [c] is accounted for in the state: its
    parties and works have an empty key or a seen one, its shares a seen
    key when their rounded percentage is a number. *)
Record covered (st : merge_state) (c : ContractData.t) : Prop := {
  cov_parties :
    forall p, p ∈ ContractData.parties c ->
      Spec.party_key p = "" \/ Spec.party_key p ∈ seen_parties st;
  cov_works :
    forall w, w ∈ ContractData.works c ->
      Spec.work_key w = "" \/ Spec.work_key w ∈ seen_works st;
  cov_shares :
    forall r, r ∈ ContractData.royalty_shares c -> rounds_to_number r ->
      key_in (code_share_key r) (seen_shares st) = true }.

(** The seen keys of [st] are still seen in [st']. *)
Record grows (st st' : merge_state) : Prop := {
  grows_parties : seen_parties st ⊆ seen_parties st';
  grows_works : seen_works st ⊆ seen_works st';
  grows_shares :
    forall k, key_in k (seen_shares st) = true ->
      key_in k (seen_shares st') = true }.

(** The names of the record [c] normalize without error in the namespace
    [globals]. *)
Record names_ok (globals : list string) (c : ContractData.t) : Prop := {
  ok_parties :
    forall p, p ∈ ContractData.parties c ->
      normalize_name globals (Party.name p) = Ok (Spec.party_key p);
  ok_shares :
    forall r, r ∈ ContractData.royalty_shares c ->
      normalize_name globals (RoyaltyShare.party_name r)
      = Ok (Spec.normalize (RoyaltyShare.party_name r)) }.

(** The state differs from [st] in its summaries only. *)
Definition same_lists (st st' : merge_state) : Prop :=
  merged_parties st' = merged_parties st
  /\ merged_works st' = merged_works st
  /\ merged_royalty_shares st' = merged_royalty_shares st
  /\ seen_parties st' = seen_parties st
  /\ seen_works st' = seen_works st
  /\ seen_shares st' = seen_shares st.

(** ** Example inputs *)

Module Ex.

Definition text (s : string) : cell := CStr s None.

(** Specification example 4. *)
Definition headers4 : list cell :=
  [ text "Release Title"; text "Net Payable"; text "Withheld Amount" ].

(** Specification example 1: the statement [{"Home": 1000.0}]. *)
Definition home_sheet : sheet :=
  {| header_row := [ text "Song Title"; text "Net Payable" ];
     data_rows := [ [ text "Home"; CNum 1000 "1000" ] ] |}.

Definition home : Work.t := Work.mk "Home" "Song" None.

Definition streaming (who : string) (pct : float) : RoyaltyShare.t :=
  RoyaltyShare.mk who "streaming" pct None.

Definition home_contract : ContractData.t :=
  ContractData.mk [] [ home ]
    [ streaming "Alice" 60; streaming "Bob" 40 ] None None.

(** A statement paying 3.0 for "Home" and a 35% streaming share. *)
Definition three_sheet : sheet :=
  {| header_row := [ text "Song Title"; text "Net Payable" ];
     data_rows := [ [ text "Home"; CNum 3 "3" ] ] |}.

Definition alice35_contract : ContractData.t :=
  ContractData.mk [] [ home ] [ streaming "Alice" 35 ] None None.

(** A statement whose only row has a title cell of blanks. *)
Definition blank_title_sheet : sheet :=
  {| header_row := [ text "Song Title"; text "Net Payable" ];
     data_rows := [ [ text "   "; CNum 5 "5" ] ] |}.

Definition alice_contract : ContractData.t :=
  ContractData.mk [] [ home ] [ streaming "Alice" 50 ] None None.

(** A statement with no data row. *)
Definition empty_sheet : sheet :=
  {| header_row := [ text "Song Title"; text "Net Payable" ]; data_rows := [] |}.

Definition publishing_contract : ContractData.t :=
  ContractData.mk [] [ home ]
    [ RoyaltyShare.mk "Alice" "publishing" 50 None ] None None.

(** A statement with an unnamed column between the title and the payable
    column. *)
Definition gap_sheet : sheet :=
  {| header_row := [ text "Title"; CNone; text "Net Payable" ];
     data_rows := [ [ text "Home"; CNum 3 "3"; CNum 10 "10" ] ] |}.

(** Contracts for the merge. *)
Definition jane : Party.t := Party.mk "Jane Doe" "artist" None.

Definition jane_contract : ContractData.t :=
  ContractData.mk [ jane ] [ home ] [ streaming "Jane Doe" 50 ] None None.

Definition annotated : Party.t := Party.mk "(producer)" "producer" None.

Definition annotated_contract : ContractData.t :=
  ContractData.mk [ annotated ] [] [] None None.

Definition us_share : RoyaltyShare.t :=
  RoyaltyShare.mk "" "streaming (US)" 50 None.

Definition uk_share : RoyaltyShare.t :=
  RoyaltyShare.mk "" "streaming (UK)" 50 None.

Definition territories_contract : ContractData.t :=
  ContractData.mk [] [] [ us_share; uk_share ] None None.

Definition jane_us : RoyaltyShare.t :=
  RoyaltyShare.mk "Jane Doe" "streaming (US)" 50 None.

Definition jane_uk : RoyaltyShare.t :=
  RoyaltyShare.mk "Jane Doe" "streaming (UK)" 50 None.

Definition jane_territories : ContractData.t :=
  ContractData.mk [ jane ] [] [ jane_us; jane_uk ] None None.

(** What merging [jane_contract] and [jane_territories] returns. *)
Definition jane_merged : ContractData.t :=
  ContractData.mk [ jane ] [ home ]
    [ streaming "Jane Doe" 50; jane_us; jane_uk ] (Some "") None.

(** A record that names nobody, and what merging it after
    [territories_contract] returns: the second spelling of the work, the
    share already seen, the second spelling of the royalty type and the
    percentage that rounds to 33.33 again are left out. *)
Definition unnamed_contract : ContractData.t :=
  ContractData.mk [ Party.mk "" "artist" None ]
    [ home; Work.mk "  HOME " "Album" None ]
    [ us_share; streaming "" 50; RoyaltyShare.mk "" "  STREAMING " 50 None;
      streaming "" (33333 / 1000); streaming "" (33334 / 1000) ] None None.

Definition unnamed_merged : ContractData.t :=
  ContractData.mk [] [ home ]
    [ us_share; uk_share; streaming "" 50; streaming "" (33333 / 1000) ]
    (Some "") None.

Definition nan_share : RoyaltyShare.t :=
  RoyaltyShare.mk "" "streaming" nan None.

Definition nan_contract : ContractData.t :=
  ContractData.mk [] [] [ nan_share ] None None.

End Ex.

(** ** Further definitions used by the properties of the ingestor,
    the merger and the reports *)

(** The indices lines 82-97 of [read_royalty_statement] compute: the
    position, among the headers kept, of the title column and of the
    payable column, each the lower-cased override or the detected one. *)
Definition column_indices (sh : sheet) (title_column payable_column : option string)
    : result (nat * nat) :=
  let headers := extract_headers (header_row sh) in
  title_column ←
    match title_column with
    | None => _find_title_column headers
    | Some c => Ok (PyStr.lower c)
    end;
  payable_column ←
    match payable_column with
    | None => _find_payable_column headers
    | Some c => Ok (PyStr.lower c)
    end;
  match list_index headers title_column, list_index headers payable_column with
  | Some title_idx, Some payable_idx => Ok (title_idx, payable_idx)
  | _, _ => Err (ValueError could_not_find_required_columns)
  end.

(** What one data row adds to the aggregate (lines 102-108): the trimmed
    title and the amount, when the title cell is true, the payable cell is
    not [None] and converts to a float. *)
Definition row_entry (title_idx payable_idx : nat) (row : list cell)
    : option (string * float) :=
  match nth_error row title_idx, nth_error row payable_idx with
  | Some tcell, Some pcell =>
      if Cell.truthy tcell && Cell.is_not_none pcell then
        match Cell.float pcell with
        | Converted amount => Some (PyStr.strip (Cell.str tcell), amount)
        | _ => None
        end
      else None
  | _, _ => None
  end.

Definition row_entries (title_idx payable_idx : nat) (rows : list (list cell))
    : list (string * float) :=
  omap (row_entry title_idx payable_idx) rows.

(** The amounts entered under one title, in row order. *)
Definition amounts_of (title : string) (entries : list (string * float))
    : list float :=
  map snd (List.filter (fun e => String.eqb (fst e) title) entries).

(** [0.0 + a1 + a2 + ...], added from the left. *)
Definition float_sum (start : float) (amounts : list float) : float :=
  fold_left (fun acc a => (acc + a)%float) amounts start.

(** The titles of a list that are not in [seen], each at its first
    occurrence. *)
Fixpoint first_seen (seen : list string) (titles : list string) : list string :=
  match titles with
  | [] => []
  | t :: titles' =>
      if existsb (String.eqb t) seen then first_seen seen titles'
      else t :: first_seen (t :: seen) titles'
  end.

(** The party [p] has the normalized name of the party [q]. *)
Definition same_party_key (q p : Party.t) : bool :=
  String.eqb (Spec.party_key p) (Spec.party_key q).

(** The work [w] has the normalized title of the work [q]. *)
Definition same_work_key (q w : Work.t) : bool :=
  String.eqb (Spec.work_key w) (Spec.work_key q).

(** All parties, works and shares of the input records, in input order. *)
Definition all_parties (contracts : list ContractData.t) : list Party.t :=
  flat_map ContractData.parties contracts.

Definition all_works (contracts : list ContractData.t) : list Work.t :=
  flat_map ContractData.works contracts.

Definition all_shares (contracts : list ContractData.t) : list RoyaltyShare.t :=
  flat_map ContractData.royalty_shares contracts.

(** ** Reports *)

(** The grouping of the payments by payee ([app.py], lines 312-317):
    [party_groups[name]] is created empty at the first payment of [name]
    and every payment is appended to the list of its payee. *)
Fixpoint group_add (party_groups : list (string * list RoyaltyPayment.t))
    (payment : RoyaltyPayment.t) : list (string * list RoyaltyPayment.t) :=
  match party_groups with
  | [] => [ (RoyaltyPayment.party_name payment, [] ++ [ payment ]) ]
  | (party_name, party_payments) :: groups' =>
      if String.eqb party_name (RoyaltyPayment.party_name payment)
      then (party_name, party_payments ++ [ payment ]) :: groups'
      else (party_name, party_payments) :: group_add groups' payment
  end.

Definition party_groups (payments : list RoyaltyPayment.t)
    : list (string * list RoyaltyPayment.t) :=
  fold_left group_add payments [].

(** [len(set(p.party_name for p in payments))] of
    [create_summary_metrics] ([app.py], line 177). *)
Definition unique_payees (payments : list RoyaltyPayment.t) : nat :=
  size (list_to_set (map RoyaltyPayment.party_name payments) : gset string).

(** An entry of [payee_totals] in [print_payment_summary]
    (lines 527-531). *)
Record payee := { payee_role : string; payee_total : float;
                  payee_details : list RoyaltyPayment.t }.

(** Lines 525-533: the entry of the payee is created with total [0.0] at
    its first payment; the amount is added and the payment appended. *)
Fixpoint payee_add (payee_totals : list (string * payee))
    (payment : RoyaltyPayment.t) : list (string * payee) :=
  match payee_totals with
  | [] =>
      [ (RoyaltyPayment.party_name payment,
         {| payee_role := RoyaltyPayment.role payment;
            payee_total := (0 + RoyaltyPayment.amount_to_pay payment)%float;
            payee_details := [] ++ [ payment ] |}) ]
  | (name, data) :: totals' =>
      if String.eqb name (RoyaltyPayment.party_name payment)
      then (name,
            {| payee_role := payee_role data;
               payee_total :=
                 (payee_total data + RoyaltyPayment.amount_to_pay payment)%float;
               payee_details := payee_details data ++ [ payment ] |}) :: totals'
      else (name, data) :: payee_add totals' payment
  end.

Definition payee_totals (payments : list RoyaltyPayment.t)
    : list (string * payee) :=
  fold_left payee_add payments [].

(** [party_groups[name]], the empty list standing for a missing key. *)
Fixpoint group_get (party_groups : list (string * list RoyaltyPayment.t))
    (name : string) : list RoyaltyPayment.t :=
  match party_groups with
  | [] => []
  | (party_name, party_payments) :: groups' =>
      if String.eqb party_name name then party_payments
      else group_get groups' name
  end.

(** [payee_totals.get(name)] *)
Fixpoint payee_get (payee_totals : list (string * payee)) (name : string)
    : option payee :=
  match payee_totals with
  | [] => None
  | (payee_name, data) :: totals' =>
      if String.eqb payee_name name then Some data else payee_get totals' name
  end.

(** The payments of one payee, in order. *)
Definition payments_of (party_name : string) (payments : list RoyaltyPayment.t)
    : list RoyaltyPayment.t :=
  List.filter
    (fun p => String.eqb party_name (RoyaltyPayment.party_name p)) payments.

(** What the entry of a payee holds after the loop over the payments:
    its payments in order, their amounts added from [0.0] in that order,
    and the role of the first of them. *)
Definition payee_entry_ok (payments : list RoyaltyPayment.t) (name : string)
    (data : payee) : Prop :=
  payee_details data = payments_of name payments
  /\ payee_total data
     = float_sum 0 (map RoyaltyPayment.amount_to_pay (payments_of name payments))
  /\ exists first rest,
       payments_of name payments = first :: rest
       /\ payee_role data = RoyaltyPayment.role first.

(** ** Further example inputs *)

Module More.

(** A statement without a title column. *)
Definition no_title_sheet : sheet :=
  {| header_row := [ Ex.text "Artist"; Ex.text "Net Payable" ];
     data_rows := [ [ Ex.text "Romes"; CNum 10 "10" ] ] |}.


(** A statement with a repeated title, a padded title, a row without
    title, a row whose amount is text and a row without amount. *)
Definition mixed_sheet : sheet :=
  {| header_row := [ Ex.text "Track"; Ex.text "Earnings" ];
     data_rows :=
       [ [ Ex.text "Home"; CNum 1 "1" ];
         [ Ex.text "Away"; CNum 2 "2" ];
         [ Ex.text " Home "; CNum 3 "3" ];
         [ CNone; CNum 4 "4" ];
         [ Ex.text "Away"; Ex.text "n/a" ];
         [ Ex.text "Lost"; CNone ] ] |}.

(** A statement whose amount is an int beyond the range of [float],
    [10 ** 400]. *)
Definition huge_sheet : sheet :=
  {| header_row := [ Ex.text "Track"; Ex.text "Earnings" ];
     data_rows :=
       [ [ Ex.text "Home";
           CBig (String "1" (string_of_list_ascii (repeat "0"%char 400))) ] ] |}.

Definition mixed_totals : dict := [ ("Home", 4%float); ("Away", 2%float) ].

Definition pay (song who : string) (amount : float) : RoyaltyPayment.t :=
  RoyaltyPayment.mk song who "artist" "streaming" 50 (2 * amount) amount.

Definition three_payments : list RoyaltyPayment.t :=
  [ pay "Home" "Alice" 1; pay "Home" "Bob" 2; pay "Away" "Alice" 4 ].

(** What merging [jane_territories] before [jane_contract] returns. *)
Definition jane_merged_rev : ContractData.t :=
  ContractData.mk [ Ex.jane ] [ Ex.home ]
    [ Ex.jane_us; Ex.jane_uk; Ex.streaming "Jane Doe" 50 ] (Some "") None.

(** Two records without parties or shares that title the same work
    differently, and a second work. *)
Definition home_album : Work.t := Work.mk " HOME " "Album" None.

Definition away : Work.t := Work.mk "Away" "Song" None.

Definition works_contract : ContractData.t :=
  ContractData.mk [] [ Ex.home ] [] None None.

Definition album_contract : ContractData.t :=
  ContractData.mk [] [ home_album; away ] [] None None.

(** A later record that names Jane Doe with another role. *)
Definition jane_writer : Party.t := Party.mk "JANE DOE (writer)" "writer" None.

Definition writer_contract : ContractData.t :=
  ContractData.mk [ jane_writer ] [ Ex.home ] [] None None.

End More.

(** * Properties *)

(** ** Python strings *)

Example lower_ex : PyStr.lower "Net Payable" = "net payable".
Proof. reflexivity. Qed.

Example strip_ex : PyStr.strip "  Jane Doe " = "Jane Doe".
Proof. reflexivity. Qed.

Example re_sub_ex :
  PyStr.re_sub_parens "Jane Doe (producer)" = "Jane Doe "
  /\ PyStr.re_sub_parens "a (b" = "a (b"
  /\ PyStr.re_sub_parens "(a(b)c)" = "c)".
Proof. repeat split; reflexivity. Qed.

Example contains_ex :
  PyStr.contains "midnight" "midnight (feat. x)" = true
  /\ PyStr.contains "" "home" = true
  /\ PyStr.contains "home" "" = false.
Proof. repeat split; reflexivity. Qed.

Example round2_ex :
  PyFloat.round2 0.125 = (12 / 100)%float
  /\ PyFloat.round2 0.375 = (38 / 100)%float
  /\ PyFloat.round2 50 = 50%float
  /\ PyFloat.round2 nan = nan.
Proof. repeat split; vm_compute; reflexivity. Qed.

(** Lower-casing leaves white space alone and changes no other
    character into white space; it is idempotent and goes through
    concatenation. *)
Section Padding.

Lemma is_space_lower_char c : PyStr.is_space (PyStr.lower_char c) = PyStr.is_space c.
Proof.
  unfold PyStr.lower_char.
  destruct ((65 <=? nat_of_ascii c)%nat && (nat_of_ascii c <=? 90)%nat) eqn:E;
    [|reflexivity].
  apply andb_true_iff in E as [E1 E2]. apply Nat.leb_le in E1, E2.
  unfold PyStr.is_space. rewrite nat_ascii_embedding by lia.
  repeat match goal with
         | |- context [(?a <=? ?b)%nat] =>
             destruct (Nat.leb_spec a b); try lia
         end; reflexivity.
Qed.

Lemma lower_char_idem c : PyStr.lower_char (PyStr.lower_char c) = PyStr.lower_char c.
Proof.
  unfold PyStr.lower_char.
  destruct ((65 <=? nat_of_ascii c)%nat && (nat_of_ascii c <=? 90)%nat) eqn:E.
  - apply andb_true_iff in E as [E1 E2].
    apply Nat.leb_le in E1, E2.
    rewrite nat_ascii_embedding by lia.
    destruct ((65 <=? nat_of_ascii c + 32)%nat
              && (nat_of_ascii c + 32 <=? 90)%nat) eqn:E'; [|reflexivity].
    apply andb_true_iff in E' as [_ E']. apply Nat.leb_le in E'. lia.
  - now rewrite E.
Qed.

Lemma lower_idem s : PyStr.lower (PyStr.lower s) = PyStr.lower s.
Proof.
  induction s as [|c s IH]; cbn [PyStr.lower]; [reflexivity|].
  now rewrite lower_char_idem, IH.
Qed.

Lemma append_cons c s1 s2 : (String c s1 ++ s2)%string = String c (s1 ++ s2).
Proof. reflexivity. Qed.

Lemma lower_app s1 s2 :
  PyStr.lower (s1 ++ s2) = (PyStr.lower s1 ++ PyStr.lower s2)%string.
Proof.
  induction s1 as [|c s1 IH]; [reflexivity|].
  rewrite append_cons. cbn [PyStr.lower]. now rewrite IH, append_cons.
Qed.

Lemma blank_lower s : PyStr.blank (PyStr.lower s) = PyStr.blank s.
Proof.
  induction s as [|c s IH]; cbn [PyStr.lower PyStr.blank]; [reflexivity|].
  now rewrite is_space_lower_char, IH.
Qed.

Lemma rstrip_cons c s :
  PyStr.rstrip (String c s)
  = match PyStr.rstrip s with
    | EmptyString =>
        if PyStr.is_space c then EmptyString else String c EmptyString
    | r => String c r
    end.
Proof. reflexivity. Qed.

Lemma lstrip_blank s : PyStr.blank s = true -> PyStr.lstrip s = "".
Proof.
  induction s as [|c s IH]; cbn [PyStr.blank PyStr.lstrip]; [reflexivity|].
  intros [-> Hs]%andb_true_iff. auto.
Qed.

Lemma rstrip_blank s : PyStr.blank s = true -> PyStr.rstrip s = "".
Proof.
  induction s as [|c s IH]; [reflexivity|]. cbn [PyStr.blank].
  intros [Hc Hs]%andb_true_iff. now rewrite rstrip_cons, (IH Hs), Hc.
Qed.

Lemma lstrip_blank_app pre s :
  PyStr.blank pre = true -> PyStr.lstrip (pre ++ s) = PyStr.lstrip s.
Proof.
  induction pre as [|c pre IH]; [reflexivity|].
  rewrite append_cons. cbn [PyStr.blank PyStr.lstrip].
  intros [-> Hs]%andb_true_iff. auto.
Qed.

Lemma rstrip_app_blank s post :
  PyStr.blank post = true -> PyStr.rstrip (s ++ post) = PyStr.rstrip s.
Proof.
  intros Hb. induction s as [|c s IH].
  - now apply rstrip_blank.
  - now rewrite append_cons, !rstrip_cons, IH.
Qed.

Lemma strip_app_blank s post :
  PyStr.blank post = true -> PyStr.strip (s ++ post) = PyStr.strip s.
Proof.
  intros Hb. unfold PyStr.strip.
  induction s as [|c s IH].
  - change ("" ++ post)%string with post. now rewrite (lstrip_blank post Hb).
  - rewrite append_cons. cbn [PyStr.lstrip].
    destruct (PyStr.is_space c); [exact IH|].
    now apply (rstrip_app_blank (String c s)).
Qed.

(** White space around a text is removed by [strip], whatever its
    amount. *)
Lemma strip_padded pre s post :
  PyStr.blank pre = true -> PyStr.blank post = true ->
  PyStr.strip (pre ++ s ++ post) = PyStr.strip s.
Proof.
  intros Hpre Hpost. unfold PyStr.strip at 1.
  rewrite (lstrip_blank_app _ _ Hpre). now apply strip_app_blank.
Qed.

Lemma strip_lower_padded pre s post :
  PyStr.blank pre = true -> PyStr.blank post = true ->
  PyStr.strip (PyStr.lower (pre ++ s ++ post)) = PyStr.strip (PyStr.lower s).
Proof.
  intros Hpre Hpost. rewrite !lower_app.
  apply strip_padded; now rewrite blank_lower.
Qed.

End Padding.

(** ** Payable-column detection *)

Section PayableColumn.

Lemma priority_hit_existsb vars header :
  priority_hit vars header =
  existsb (fun var => String.eqb var header || PyStr.contains var header) vars.
Proof.
  induction vars as [|var vars IH]; simpl; [reflexivity|].
  rewrite IH. now destruct (String.eqb var header || PyStr.contains var header).
Qed.

Lemma general_hit_existsb vars header :
  general_hit vars header =
  existsb (fun var => PyStr.contains var header) vars
  && negb (existsb (fun word => PyStr.contains word header) Spec.excluded).
Proof.
  induction vars as [|var vars IH]; simpl; [reflexivity|].
  rewrite IH. simpl.
  destruct (PyStr.contains var header); simpl; [|reflexivity].
  destruct (PyStr.contains "withheld" header); simpl.
  { now rewrite andb_false_r. }
  destruct (PyStr.contains "deduction" header); simpl.
  { now rewrite andb_false_r. }
  destruct (PyStr.contains "fee" header); simpl; [now rewrite andb_false_r|].
  reflexivity.
Qed.

Lemma first_pass_find headers : first_pass headers = List.find Spec.pass1 headers.
Proof.
  induction headers as [|h hs IH]; cbn [first_pass List.find]; [reflexivity|].
  rewrite priority_hit_existsb.
  change (existsb _ priority_variations) with (Spec.pass1 h).
  now destruct (Spec.pass1 h).
Qed.

Lemma second_pass_find headers : second_pass headers = List.find Spec.pass2 headers.
Proof.
  induction headers as [|h hs IH]; cbn [second_pass List.find]; [reflexivity|].
  rewrite general_hit_existsb.
  change (existsb _ general_variations && _) with (Spec.pass2 h).
  now destruct (Spec.pass2 h).
Qed.

(** C6. Payable-column detection is two-pass.  The code's lists are the
    synonyms the specification names, and the method is the two-pass
    search: the first header in file order that equals or contains a
    high-precision synonym wins, even when an earlier header would pass
    pass 2; only when there is none, the first header that contains a
    loose synonym and none of "withheld", "deduction", "fee" wins; with
    neither the detection fails with the column-not-found error.  Each
    high-precision synonym beats an earlier loose one, each loose synonym
    is found after a header rejected for a fee word, each rejected word
    excludes a header, and for the headers of example 4 the column is
    "net payable". *)
Theorem find_payable_column_two_pass :
  (forall headers, _find_payable_column headers = Spec.payable_column headers)
  /\ (forall headers e,
        _find_payable_column headers = Err e -> ColumnNotFoundError e)
  /\ (forall headers header,
        List.find Spec.pass1 headers = None ->
        _find_payable_column headers = Ok header ->
        Forall (fun word => PyStr.contains word header = false) Spec.excluded)
  /\ extract_headers Ex.headers4
       = [ "release title"; "net payable"; "withheld amount" ]
  /\ _find_payable_column (extract_headers Ex.headers4) = Ok "net payable"
  /\ (forall headers header,
        List.find Spec.pass1 headers = Some header ->
        _find_payable_column headers = Ok header)
  /\ (forall headers header,
        List.find Spec.pass1 headers = None ->
        List.find Spec.pass2 headers = Some header ->
        _find_payable_column headers = Ok header)
  /\ (forall headers,
        List.find Spec.pass1 headers = None ->
        List.find Spec.pass2 headers = None ->
        _find_payable_column headers
        = Err (ValueError could_not_auto_detect_payable_column))
  /\ _find_payable_column [ "payable"; "net payable" ] = Ok "net payable"
  /\ _find_payable_column [ "withheld amount"; "amount"; "earnings" ] = Ok "amount"
  /\ Forall (fun var =>
               Spec.pass2 "amount" = true
               /\ _find_payable_column [ "amount"; ("my " ++ var ++ " (usd)")%string ]
                  = Ok ("my " ++ var ++ " (usd)")%string)
       Spec.high_precision_synonyms
  /\ Forall (fun var =>
               _find_payable_column [ ("fee " ++ var)%string; "title"; ("my " ++ var)%string ]
               = Ok ("my " ++ var)%string)
       Spec.loose_synonyms
  /\ Forall (fun word =>
               _find_payable_column [ (word ++ " amount")%string ]
               = Err (ValueError could_not_auto_detect_payable_column))
       Spec.excluded.
Proof.
  assert (Heq : forall headers,
             _find_payable_column headers = Spec.payable_column headers).
  { intros headers. unfold _find_payable_column, Spec.payable_column.
    now rewrite first_pass_find, second_pass_find. }
  split; [exact Heq|]. split; [|split; [|split; [|split]]]; try reflexivity.
  - intros headers e. rewrite Heq. unfold Spec.payable_column.
    destruct (List.find Spec.pass1 headers); [discriminate|].
    destruct (List.find Spec.pass2 headers); [discriminate|].
    intros [= <-]. right. now left.
  - intros headers header Hnone. rewrite Heq. unfold Spec.payable_column.
    rewrite Hnone.
    destruct (List.find Spec.pass2 headers) as [h|] eqn:Hfind; [|discriminate].
    intros [= <-]. apply find_some in Hfind as [_ Hp].
    unfold Spec.pass2 in Hp. apply andb_true_iff in Hp as [_ Hp].
    apply negb_true_iff in Hp.
    apply List.Forall_forall. intros word Hin.
    destruct (PyStr.contains word h) eqn:Hc; [|reflexivity].
    assert (existsb (fun w => PyStr.contains w h) Spec.excluded = true)
      as Hex by (apply existsb_exists; exists word; split; assumption).
    congruence.
  - split; [|split; [|split]].
    + intros headers header H1. rewrite Heq. unfold Spec.payable_column.
      now rewrite H1.
    + intros headers header H1 H2. rewrite Heq. unfold Spec.payable_column.
      now rewrite H1, H2.
    + intros headers H1 H2. rewrite Heq. unfold Spec.payable_column.
      now rewrite H1, H2.
    + repeat split; repeat constructor.
Qed.

(** The theorem at concrete headers: a loosely named column before a
    precisely named one, and a sheet with only a loosely named column and
    a fee column. *)
Lemma find_payable_column_two_pass_witness :
  List.find Spec.pass2 [ "payable"; "net payable" ] = Some "payable"
  /\ _find_payable_column [ "payable"; "net payable" ] = Ok "net payable"
  /\ _find_payable_column [ "title"; "fee amount"; "earnings" ] = Ok "earnings"
  /\ Forall (fun word => PyStr.contains word "earnings" = false) Spec.excluded
  /\ ColumnNotFoundError (ValueError could_not_auto_detect_payable_column).
Proof.
  pose proof find_payable_column_two_pass
    as (_ & Herr & Hexcl & _ & _ & Hfirst & Hsecond & _).
  split; [reflexivity|]. split; [|split; [|split]].
  - apply (Hfirst [ "payable"; "net payable" ]). reflexivity.
  - apply (Hsecond [ "title"; "fee amount"; "earnings" ]); reflexivity.
  - apply (Hexcl [ "title"; "fee amount"; "earnings" ]); reflexivity.
  - apply (Herr [ "title"; "fees" ]). reflexivity.
Defined.

End PayableColumn.

(** ** Song Matcher *)

Section SongMatcher.

Lemma exact_match_find work items :
  exact_match work items = List.find (Spec.exact_stage work) items.
Proof.
  induction items as [|[title amount] items IH]; cbn; [reflexivity|].
  now rewrite IH.
Qed.

Lemma partial_match_find work items :
  partial_match work items = List.find (Spec.substring_stage work) items.
Proof.
  induction items as [|[title amount] items IH]; cbn; [reflexivity|].
  now rewrite IH.
Qed.

Lemma find_matching_song_spec song_title song_totals :
  _find_matching_song song_title song_totals
  = Spec.song_matcher song_title song_totals.
Proof.
  unfold _find_matching_song, Spec.song_matcher.
  now rewrite exact_match_find, partial_match_find.
Qed.

(** A title of the statement is found by the exact stage, which returns
    the first statement title with the same normal form. *)
Lemma exact_match_member title amount items :
  In (title, amount) items ->
  exists title' amount',
    exact_match (PyStr.strip (PyStr.lower title)) items = Some (title', amount')
    /\ In (title', amount') items
    /\ PyStr.strip (PyStr.lower title') = PyStr.strip (PyStr.lower title).
Proof.
  induction items as [|[t a] items IH]; intros Hin; [destruct Hin|].
  cbn [exact_match].
  destruct (String.eqb (PyStr.strip (PyStr.lower t))
              (PyStr.strip (PyStr.lower title))) eqn:Heq.
  - apply String.eqb_eq in Heq. exists t, a. repeat split; [now left|exact Heq].
  - destruct Hin as [[= -> ->]|Hin].
    + rewrite String.eqb_refl in Heq. discriminate.
    + destruct (IH Hin) as (t' & a' & Hm & Hin' & Hn).
      exists t', a'. repeat split; [exact Hm|now right|exact Hn].
Qed.

(** The same facts for the method over any text primitives. *)
Lemma any_exact_match_find lower strip work items :
  AnyText.exact_match lower strip work items
  = List.find (AnyText.exact_stage lower strip work) items.
Proof.
  induction items as [|[title amount] items IH]; cbn; [reflexivity|].
  now rewrite IH.
Qed.

Lemma any_partial_match_find lower contains work items :
  AnyText.partial_match lower contains work items
  = List.find (AnyText.substring_stage lower contains work) items.
Proof.
  induction items as [|[title amount] items IH]; cbn; [reflexivity|].
  now rewrite IH.
Qed.

Lemma any_exact_match_member lower strip title amount items :
  In (title, amount) items ->
  exists title' amount',
    AnyText.exact_match lower strip (strip (lower title)) items
    = Some (title', amount')
    /\ strip (lower title') = strip (lower title).
Proof.
  induction items as [|[t a] items IH]; intros Hin; [destruct Hin|].
  cbn [AnyText.exact_match].
  destruct (String.eqb (strip (lower t)) (strip (lower title))) eqn:Heq.
  - apply String.eqb_eq in Heq. exists t, a. now split.
  - destruct Hin as [[= -> ->]|Hin].
    + rewrite String.eqb_refl in Heq. discriminate.
    + exact (IH Hin).
Qed.

(** C4. The Song Matcher returns the first statement title equal to the
    work title up to case and surrounding white space; only when there is
    none, the first statement title such that the normalized work title is
    contained in the lower-cased statement title or contains it; and
    [(None, 0.0)], not an exception, when neither stage finds one.  A work
    titled as a statement title is matched by the exact stage, and
    "Midnight (feat. X)" is matched to "midnight" by the substring
    stage.

    The two-stage shape and the exact match of a statement title are
    proved for the method over any [str.lower], [str.strip] and [in]
    (the last four clauses), of which [_find_matching_song] is the
    instance on ASCII text: whatever they are, the result depends on the
    work title through its normal form only.  On that instance white
    space around the work title and its case do not change the result, an
    exact match that differs in case and in surrounding white space on
    both sides is preferred to an earlier substring candidate, and the
    substring stage takes the first candidate in either direction of
    containment. *)
Theorem find_matching_song_two_stage :
  (forall song_title song_totals,
      _find_matching_song song_title song_totals
      = Spec.song_matcher song_title song_totals)
  /\ (forall song_title song_totals,
        List.find (Spec.exact_stage (PyStr.strip (PyStr.lower song_title)))
          song_totals = None ->
        List.find (Spec.substring_stage (PyStr.strip (PyStr.lower song_title)))
          song_totals = None ->
        _find_matching_song song_title song_totals = (None, 0%float))
  /\ (forall title amount song_totals,
        In (title, amount) song_totals ->
        exists title' amount',
          List.find (Spec.exact_stage (PyStr.strip (PyStr.lower title)))
            song_totals = Some (title', amount')
          /\ _find_matching_song title song_totals = (Some title', amount')
          /\ PyStr.strip (PyStr.lower title') = PyStr.strip (PyStr.lower title))
  /\ (forall total,
        List.find (Spec.exact_stage (PyStr.strip (PyStr.lower "Midnight (feat. X)")))
          [ ("midnight", total) ] = None
        /\ _find_matching_song "Midnight (feat. X)" [ ("midnight", total) ]
           = (Some "midnight", total))
  /\ (forall pre post song_title song_totals,
        PyStr.blank pre = true -> PyStr.blank post = true ->
        _find_matching_song (pre ++ song_title ++ post) song_totals
        = _find_matching_song song_title song_totals)
  /\ (forall song_title song_totals,
        _find_matching_song (PyStr.lower song_title) song_totals
        = _find_matching_song song_title song_totals)
  /\ (forall t1 t2,
        PyStr.contains "home" (PyStr.lower "Homeward") = true
        /\ _find_matching_song "  home "
             [ ("Homeward", t1); (String "009" "HOME  ", t2) ]
           = (Some (String "009" "HOME  "), t2))
  /\ (forall t1 t2 t3,
        _find_matching_song " HOME"
          [ ("Away", t1); ("No Place Like Home ", t2); ("homeward", t3) ]
        = (Some "No Place Like Home ", t2))
  /\ (forall t1 t2,
        _find_matching_song "Home Sweet Home" [ ("Away", t1); ("HOME", t2) ]
        = (Some "HOME", t2))
  /\ (forall t1 t2,
        _find_matching_song "My Song" [ ("My  Song", t1); ("Mysong", t2) ]
        = (None, 0%float))
  /\ (forall song_title song_totals,
        _find_matching_song song_title song_totals
        = AnyText._find_matching_song PyStr.lower PyStr.strip PyStr.contains
            song_title song_totals)
  /\ (forall lower strip contains song_title song_totals,
        AnyText._find_matching_song lower strip contains song_title song_totals
        = AnyText.song_matcher lower strip contains song_title song_totals)
  /\ (forall lower strip contains title amount song_totals,
        In (title, amount) song_totals ->
        exists title' amount',
          List.find (AnyText.exact_stage lower strip (strip (lower title)))
            song_totals = Some (title', amount')
          /\ AnyText._find_matching_song lower strip contains title song_totals
             = (Some title', amount')
          /\ strip (lower title') = strip (lower title))
  /\ (forall lower strip contains title title' song_totals,
        strip (lower title) = strip (lower title') ->
        AnyText._find_matching_song lower strip contains title song_totals
        = AnyText._find_matching_song lower strip contains title' song_totals).
Proof.
  split; [exact find_matching_song_spec|]. split; [|split; [|split]].
  - intros song_title song_totals He Hs.
    rewrite find_matching_song_spec. unfold Spec.song_matcher.
    now rewrite He, Hs.
  - intros title amount song_totals Hin.
    destruct (exact_match_member title amount song_totals Hin)
      as (t' & a' & Hm & _ & Hn).
    exists t', a'. rewrite <- exact_match_find. split; [exact Hm|].
    split; [|exact Hn].
    unfold _find_matching_song. now rewrite Hm.
  - intros total. split; reflexivity.
  - split; [|split; [|split; [|split; [|split; [|split; [|split; [|split; [|split]]]]]]]].
    + intros pre post song_title song_totals Hpre Hpost.
      unfold _find_matching_song. now rewrite strip_lower_padded.
    + intros song_title song_totals. unfold _find_matching_song.
      now rewrite lower_idem.
    + intros t1 t2. split; reflexivity.
    + reflexivity.
    + reflexivity.
    + reflexivity.
    + reflexivity.
    + intros lower strip contains song_title song_totals.
      unfold AnyText._find_matching_song, AnyText.song_matcher.
      now rewrite any_exact_match_find, any_partial_match_find.
    + intros lower strip contains title amount song_totals Hin.
      destruct (any_exact_match_member lower strip title amount song_totals Hin)
        as (t' & a' & Hm & Hn).
      exists t', a'. rewrite <- any_exact_match_find. split; [exact Hm|].
      split; [|exact Hn].
      unfold AnyText._find_matching_song. now rewrite Hm.
    + intros lower strip contains title title' song_totals Hn.
      unfold AnyText._find_matching_song. now rewrite Hn.
Qed.

(** The theorem at a statement with two titles that differ in case, at a
    padded work title, and at a work title that matches nothing. *)
Lemma find_matching_song_two_stage_witness :
  In ("HOME", 2%float) [ ("Home", 1%float); ("HOME", 2%float) ]
  /\ (exists title' amount',
        List.find (Spec.exact_stage (PyStr.strip (PyStr.lower "HOME")))
          [ ("Home", 1%float); ("HOME", 2%float) ] = Some (title', amount')
        /\ _find_matching_song "HOME" [ ("Home", 1%float); ("HOME", 2%float) ]
           = (Some title', amount')
        /\ PyStr.strip (PyStr.lower title') = PyStr.strip (PyStr.lower "HOME"))
  /\ _find_matching_song "Away" [ ("Home", 1%float) ] = (None, 0%float)
  /\ _find_matching_song (String "009" " " ++ "Home" ++ "  ")
       [ ("Homeward", 1%float); ("home", 2%float) ]
     = _find_matching_song "Home" [ ("Homeward", 1%float); ("home", 2%float) ]
  /\ _find_matching_song "Home" [ ("Homeward", 1%float); ("home", 2%float) ]
     = (Some "home", 2%float).
Proof.
  pose proof find_matching_song_two_stage as (_ & Hnone & Hmem & _ & Hpad & _).
  split; [right; left; reflexivity|]. split; [|split; [|split]].
  - apply (Hmem "HOME" 2%float). right; left; reflexivity.
  - apply (Hnone "Away" [ ("Home", 1%float) ]); reflexivity.
  - apply (Hpad (String "009" " ") "  " "Home"); reflexivity.
  - reflexivity.
Defined.

End SongMatcher.

(** ** Payment Calculator *)

Section PaymentCalculator.

Variable contract_data : ContractData.t.
Variable song_totals : dict.

Local Abbreviation streaming_shares :=
  (List.filter is_streaming (ContractData.royalty_shares contract_data)).

(** The loop appends, work by work, the payments of the works whose
    matched title is non-empty. *)
Lemma payment_loop_flat_map works payments :
  payment_loop contract_data song_totals streaming_shares works payments
  = payments
    ++ flat_map (payments_of_work contract_data song_totals)
         (List.filter (matcher_pays song_totals) works).
Proof.
  revert payments.
  induction works as [|work works IH]; intros payments; cbn [payment_loop].
  - now rewrite app_nil_r.
  - destruct (_find_matching_song (Work.title work) song_totals)
      as [matching_song total_royalty] eqn:Hfind.
    assert (Hpays : matcher_pays song_totals work = matching_truthy matching_song)
      by (unfold matcher_pays; now rewrite Hfind).
    assert (Hof : payments_of_work contract_data song_totals work
                  = map (payment contract_data work total_royalty) streaming_shares)
      by (unfold payments_of_work; now rewrite Hfind).
    cbn [List.filter]. rewrite Hpays.
    destruct (matching_truthy matching_song).
    + rewrite IH. cbn [flat_map]. now rewrite <- app_assoc, Hof.
    + apply IH.
Qed.

Lemma payments_of_work_length work :
  length (payments_of_work contract_data song_totals work)
  = length streaming_shares.
Proof. unfold payments_of_work. now rewrite length_map. Qed.

Lemma flat_map_payments_length works :
  length (flat_map (payments_of_work contract_data song_totals) works)
  = length works * length streaming_shares.
Proof.
  induction works as [|work works IH]; [reflexivity|].
  cbn [flat_map]. rewrite length_app, payments_of_work_length, IH.
  cbn [length]. lia.
Qed.

Lemma flat_map_no_share works :
  streaming_shares = [] ->
  flat_map (payments_of_work contract_data song_totals) works = [].
Proof.
  intros Hnil. induction works as [|work works IH]; [reflexivity|].
  cbn [flat_map]. rewrite IH. unfold payments_of_work.
  now rewrite Hnil.
Qed.

Lemma flat_map_payments_exact works :
  Forall exact_amount
    (flat_map (payments_of_work contract_data song_totals) works).
Proof.
  apply List.Forall_forall. intros p Hin.
  apply in_flat_map in Hin as (work & _ & Hin).
  unfold payments_of_work in Hin. apply in_map_iff in Hin as (share & <- & _).
  reflexivity.
Qed.

End PaymentCalculator.

(** What [calculate_payments_from_data] returns once its three checks have
    passed. *)
Lemma calculate_payments_from_data_ok contract_data statement tc pc song_totals :
  ContractData.works contract_data <> [] ->
  ContractData.royalty_shares contract_data <> [] ->
  read_royalty_statement statement tc pc = Ok song_totals ->
  song_totals <> [] ->
  calculate_payments_from_data contract_data statement tc pc
  = Ok (flat_map (payments_of_work contract_data song_totals)
          (List.filter (matcher_pays song_totals)
             (ContractData.works contract_data))).
Proof.
  intros Hw Hs Hread Ht. unfold calculate_payments_from_data.
  destruct (ContractData.works contract_data) as [|w ws] eqn:Ew; [easy|].
  destruct (ContractData.royalty_shares contract_data) as [|r rs] eqn:Er; [easy|].
  rewrite Hread. cbn [mbind result_bind].
  destruct song_totals as [|item items]; [easy|].
  rewrite <- Er, <- Ew.
  destruct (List.filter is_streaming (ContractData.royalty_shares contract_data))
    eqn:Ef.
  - now rewrite flat_map_no_share.
  - rewrite <- Ef. now rewrite payment_loop_flat_map.
Qed.

(** Whatever [calculate_payments_from_data] returns is of that form. *)
Lemma calculate_payments_from_data_inv contract_data statement tc pc payments :
  calculate_payments_from_data contract_data statement tc pc = Ok payments ->
  exists song_totals,
    read_royalty_statement statement tc pc = Ok song_totals
    /\ payments
       = flat_map (payments_of_work contract_data song_totals)
           (List.filter (matcher_pays song_totals)
              (ContractData.works contract_data)).
Proof.
  intros Hcalc.
  destruct (ContractData.works contract_data) as [|w ws] eqn:Ew.
  { unfold calculate_payments_from_data in Hcalc. now rewrite Ew in Hcalc. }
  destruct (ContractData.royalty_shares contract_data) as [|r rs] eqn:Er.
  { unfold calculate_payments_from_data in Hcalc. now rewrite Ew, Er in Hcalc. }
  destruct (read_royalty_statement statement tc pc) as [song_totals|e] eqn:Hread.
  2:{ unfold calculate_payments_from_data in Hcalc.
      now rewrite Ew, Er, Hread in Hcalc. }
  destruct song_totals as [|item items].
  { unfold calculate_payments_from_data in Hcalc.
    now rewrite Ew, Er, Hread in Hcalc. }
  exists (item :: items). split; [reflexivity|].
  rewrite (calculate_payments_from_data_ok contract_data statement tc pc
             (item :: items)) in Hcalc; [|now rewrite Ew|now rewrite Er|exact Hread|easy].
  rewrite <- Ew. congruence.
Qed.

Lemma calculate_payments_inv parsed statement tc pc payments :
  calculate_payments parsed statement tc pc = Ok payments ->
  exists contract_data song_totals,
    parsed = Ok contract_data
    /\ payments
       = flat_map (payments_of_work contract_data song_totals)
           (List.filter (matcher_pays song_totals)
              (ContractData.works contract_data)).
Proof.
  unfold calculate_payments. destruct parsed as [contract_data|e]; [|discriminate].
  cbn [mbind result_bind].
  destruct (read_royalty_statement statement tc pc) as [song_totals|e];
    [|discriminate].
  cbn [mbind result_bind]. rewrite payment_loop_flat_map. intros [= <-].
  exists contract_data, song_totals. split; reflexivity.
Qed.

(** C2. [calculate_payments_from_data] checks, in this order: a record
    without Works or without RoyaltyShares fails with the invalid-contract
    error; then an empty statement aggregate fails with the
    empty-statement error; then a record with Works and RoyaltyShares none
    of which is a streaming share yields the empty list, not an error. *)
Theorem calculate_payments_from_data_checks contract_data statement tc pc :
  (ContractData.works contract_data = []
   \/ ContractData.royalty_shares contract_data = [] ->
   exists e,
     calculate_payments_from_data contract_data statement tc pc = Err e
     /\ InvalidContractDataError e)
  /\ (ContractData.works contract_data <> [] ->
      ContractData.royalty_shares contract_data <> [] ->
      read_royalty_statement statement tc pc = Ok [] ->
      exists e,
        calculate_payments_from_data contract_data statement tc pc = Err e
        /\ EmptyStatementError e)
  /\ (forall song_totals,
      ContractData.works contract_data <> [] ->
      ContractData.royalty_shares contract_data <> [] ->
      read_royalty_statement statement tc pc = Ok song_totals ->
      song_totals <> [] ->
      List.filter is_streaming (ContractData.royalty_shares contract_data) = [] ->
      calculate_payments_from_data contract_data statement tc pc = Ok []).
Proof.
  split; [|split].
  - intros Hempty. unfold calculate_payments_from_data.
    destruct (ContractData.works contract_data) as [|w ws].
    + exists (ValueError no_works_found). split; [reflexivity|now left].
    + destruct Hempty as [Hw|Hs]; [discriminate|]. rewrite Hs.
      exists (ValueError no_royalty_share_data_found).
      split; [reflexivity|now right].
  - intros Hw Hs Hread. unfold calculate_payments_from_data.
    destruct (ContractData.works contract_data); [easy|].
    destruct (ContractData.royalty_shares contract_data); [easy|].
    rewrite Hread. exists (ValueError no_songs_found_in_statement).
    split; reflexivity.
  - intros song_totals Hw Hs Hread Ht Hnone.
    rewrite (calculate_payments_from_data_ok _ _ _ _ song_totals Hw Hs Hread Ht).
    now rewrite flat_map_no_share.
Qed.

(** The three checks at concrete inputs: a record without works, a
    statement without rows, and a record with only a publishing share. *)
Lemma calculate_payments_from_data_checks_witness :
  (exists e,
     calculate_payments_from_data Ex.annotated_contract Ex.home_sheet None None
     = Err e /\ InvalidContractDataError e)
  /\ (exists e,
        calculate_payments_from_data Ex.home_contract Ex.empty_sheet None None
        = Err e /\ EmptyStatementError e)
  /\ calculate_payments_from_data Ex.publishing_contract Ex.home_sheet None None
     = Ok [].
Proof.
  split; [|split].
  - apply (calculate_payments_from_data_checks
             Ex.annotated_contract Ex.home_sheet None None).
    left. reflexivity.
  - apply (calculate_payments_from_data_checks
             Ex.home_contract Ex.empty_sheet None None);
      [discriminate|discriminate|reflexivity].
  - apply (calculate_payments_from_data_checks
             Ex.publishing_contract Ex.home_sheet None None)
      with (song_totals := [ ("Home", 1000%float) ]);
      [discriminate|discriminate|reflexivity|discriminate|reflexivity].
Defined.

(** C3, as the code has it.  Every payment record that
    [calculate_payments_from_data] or [calculate_payments] returns carries
    [amount_to_pay = total_royalty * (percentage / 100.0)]: the percentage
    is divided by 100.0 first and the quotient multiplied by the total,
    with no other rounding.  For the statement [{"Home": 1000.0}] and the
    streaming shares Alice 60.0 and Bob 40.0 the amounts are 600.0 and
    400.0. *)
Theorem amount_to_pay_is_total_times_hundredth :
  (forall contract_data statement tc pc payments,
      calculate_payments_from_data contract_data statement tc pc = Ok payments ->
      Forall exact_amount payments)
  /\ (forall parsed statement tc pc payments,
        calculate_payments parsed statement tc pc = Ok payments ->
        Forall exact_amount payments)
  /\ calculate_payments_from_data Ex.home_contract Ex.home_sheet None None
     = Ok [ RoyaltyPayment.mk "Home" "Alice" "Unknown" "streaming" 60 1000 600;
            RoyaltyPayment.mk "Home" "Bob" "Unknown" "streaming" 40 1000 400 ].
Proof.
  split; [|split].
  - intros contract_data statement tc pc payments Hcalc.
    apply calculate_payments_from_data_inv in Hcalc as (song_totals & _ & ->).
    apply flat_map_payments_exact.
  - intros parsed statement tc pc payments Hcalc.
    apply calculate_payments_inv in Hcalc as (cd & song_totals & _ & ->).
    apply flat_map_payments_exact.
  - vm_compute. reflexivity.
Qed.

Lemma amount_to_pay_is_total_times_hundredth_witness :
  Forall exact_amount
    [ RoyaltyPayment.mk "Home" "Alice" "Unknown" "streaming" 35 3 (3 * (35 / 100)) ].
Proof.
  pose proof amount_to_pay_is_total_times_hundredth as (Hexact & _ & _).
  apply (Hexact Ex.alice35_contract Ex.three_sheet None None).
  vm_compute. reflexivity.
Defined.

(** C3 as stated fails: with a total of 3.0 and a share of 35.0 the amount
    paid, [3.0 * (35.0 / 100.0)], is not [3.0 * 35.0 / 100.0]. *)
Lemma amount_to_pay_not_product_over_hundred :
  calculate_payments_from_data Ex.alice35_contract Ex.three_sheet None None
  = Ok [ RoyaltyPayment.mk "Home" "Alice" "Unknown" "streaming" 35 3
           (3 * (35 / 100)) ]
  /\ PyFloat.eq (3 * (35 / 100)) (3 * 35 / 100) = false.
Proof. split; vm_compute; reflexivity. Qed.

(** C10, as the code has it.  For a record with Works and RoyaltyShares
    and a non-empty statement aggregate, the payments are, work by work in
    the record's order, one record per streaming share for every Work for
    which the Song Matcher returns a non-empty statement title; their
    number is the number of those works times the number of streaming
    shares, whichever contract a share came from. *)
Theorem payments_are_works_times_streaming_shares
    contract_data statement tc pc song_totals :
  ContractData.works contract_data <> [] ->
  ContractData.royalty_shares contract_data <> [] ->
  read_royalty_statement statement tc pc = Ok song_totals ->
  song_totals <> [] ->
  exists payments,
    calculate_payments_from_data contract_data statement tc pc = Ok payments
    /\ payments
       = flat_map (payments_of_work contract_data song_totals)
           (List.filter (matcher_pays song_totals)
              (ContractData.works contract_data))
    /\ length payments
       = length (List.filter (matcher_pays song_totals)
                   (ContractData.works contract_data))
         * length (List.filter is_streaming
                     (ContractData.royalty_shares contract_data)).
Proof.
  intros Hw Hs Hread Ht. eexists. split; [|split; [reflexivity|]].
  - now apply calculate_payments_from_data_ok.
  - apply flat_map_payments_length.
Qed.

Lemma payments_are_works_times_streaming_shares_witness :
  exists payments,
    calculate_payments_from_data Ex.home_contract Ex.home_sheet None None
    = Ok payments
    /\ payments
       = flat_map (payments_of_work Ex.home_contract [ ("Home", 1000%float) ])
           (List.filter (matcher_pays [ ("Home", 1000%float) ])
              (ContractData.works Ex.home_contract))
    /\ length payments
       = length (List.filter (matcher_pays [ ("Home", 1000%float) ])
                   (ContractData.works Ex.home_contract))
         * length (List.filter is_streaming
                     (ContractData.royalty_shares Ex.home_contract)).
Proof.
  apply (payments_are_works_times_streaming_shares
           Ex.home_contract Ex.home_sheet None None [ ("Home", 1000%float) ]);
    [discriminate|discriminate|reflexivity|discriminate].
Defined.

(** C10 as stated fails: a statement row whose title cell holds only
    blanks gives the aggregate [{"": 5.0}]; the Song Matcher matches the
    work "Home" to the empty title at the substring stage, yet no payment
    is emitted for the streaming share. *)
Lemma matched_empty_title_pays_nothing :
  read_royalty_statement Ex.blank_title_sheet None None = Ok [ ("", 5%float) ]
  /\ _find_matching_song "Home" [ ("", 5%float) ] = (Some "", 5%float)
  /\ length (List.filter (matcher_matches [ ("", 5%float) ])
               (ContractData.works Ex.alice_contract)) = 1
  /\ length (List.filter is_streaming
               (ContractData.royalty_shares Ex.alice_contract)) = 1
  /\ calculate_payments_from_data Ex.alice_contract Ex.blank_title_sheet None None
     = Ok [].
Proof. repeat split; vm_compute; reflexivity. Qed.

(** ** Statement Ingestor *)

(** C7 fails on the code.  The statement has an unnamed column between
    "Title" and "Net Payable".  The headers kept are "title" and
    "net payable", so the payable column is looked up at index 1 of the
    filtered list although it stands at index 2 of the row: the aggregate
    takes 3.0 from the unnamed column instead of 10.0 from the payable
    column. *)
Theorem blank_header_shifts_payable_index :
  extract_headers (header_row Ex.gap_sheet) = [ "title"; "net payable" ]
  /\ _find_payable_column (extract_headers (header_row Ex.gap_sheet))
     = Ok "net payable"
  /\ list_index (extract_headers (header_row Ex.gap_sheet)) "net payable" = Some 1
  /\ header_row Ex.gap_sheet !! 2 = Some (Ex.text "Net Payable")
  /\ read_royalty_statement Ex.gap_sheet None None = Ok [ ("Home", 3%float) ].
Proof. repeat split; vm_compute; reflexivity. Qed.

(** ** Contract Merger *)

Section Normalize.

Variable globals : list string.

Lemma truthy_nonempty s : PyStr.truthy s = true <-> s <> "".
Proof. destruct s; cbn; split; congruence. Qed.

Lemma normalize_name_empty name :
  PyStr.truthy name = false -> normalize_name globals name = Ok "".
Proof. intros H. unfold normalize_name. now rewrite H. Qed.

Lemma normalize_name_bound name :
  bound globals "re" = true ->
  normalize_name globals name = Ok (Spec.normalize name).
Proof.
  intros H. unfold normalize_name, Spec.normalize, lookup_global.
  rewrite H. now destruct (PyStr.truthy name).
Qed.

Lemma normalize_name_unbound name :
  bound globals "re" = false -> PyStr.truthy name = true ->
  normalize_name globals name = Err (NameError "re").
Proof.
  intros H Hn. unfold normalize_name, lookup_global. now rewrite H, Hn.
Qed.

(** Either way the helper returns the normal form or raises the
    [NameError]. *)
Lemma normalize_name_cases name :
  normalize_name globals name = Ok (Spec.normalize name)
  \/ (normalize_name globals name = Err (NameError "re")
      /\ bound globals "re" = false /\ PyStr.truthy name = true).
Proof.
  destruct (bound globals "re") eqn:Hb.
  - left. now apply normalize_name_bound.
  - destruct (PyStr.truthy name) eqn:Hn.
    + right. split; [now apply normalize_name_unbound|easy].
    + left. unfold Spec.normalize. rewrite Hn. now apply normalize_name_empty.
Qed.

Lemma normalize_name_ok name k :
  normalize_name globals name = Ok k -> k = Spec.normalize name.
Proof.
  destruct (normalize_name_cases name) as [H|[H _]]; rewrite H; congruence.
Qed.

Lemma normalize_name_err name e :
  normalize_name globals name = Err e -> e = NameError "re".
Proof.
  destruct (normalize_name_cases name) as [H|[H _]]; rewrite H; congruence.
Qed.

End Normalize.

(** [==] on share keys is symmetric. *)
Lemma SFeqb_sym x y : SFeqb x y = SFeqb y x.
Proof.
  unfold SFeqb, SFcompare.
  destruct x as [sx|sx| |sx mx ex], y as [sy|sy| |sy my ey];
    try reflexivity; try (now destruct sx); try (now destruct sy);
    try (now destruct sx, sy).
  assert (Hm : Pos.compare_cont Eq mx my = CompOpp (Pos.compare_cont Eq my mx))
    by (now rewrite Pos.compare_cont_antisym).
  destruct sx, sy; try reflexivity;
    rewrite (Z.compare_antisym ex ey);
    destruct (ex ?= ey)%Z; cbn [CompOpp]; try reflexivity;
    rewrite Hm; now destruct (Pos.compare_cont Eq my mx).
Qed.

Lemma float_eq_sym x y : PyFloat.eq x y = PyFloat.eq y x.
Proof. unfold PyFloat.eq. rewrite !FloatAxioms.eqb_spec. apply SFeqb_sym. Qed.

Lemma key_eq_sym k1 k2 : key_eq k1 k2 = key_eq k2 k1.
Proof.
  destruct k1 as [[n1 t1] p1], k2 as [[n2 t2] p2]. unfold key_eq.
  now rewrite (String.eqb_sym n1 n2), (String.eqb_sym t1 t2), (float_eq_sym p1 p2).
Qed.

Lemma key_eq_refl r :
  rounds_to_number r -> key_eq (code_share_key r) (code_share_key r) = true.
Proof.
  intros H. unfold code_share_key, key_eq. now rewrite !String.eqb_refl, H.
Qed.

Lemma key_in_app k seen seen' :
  key_in k (seen ++ seen') = key_in k seen || key_in k seen'.
Proof. apply existsb_app. Qed.

Lemma distinct_keys_nil : distinct_keys [].
Proof. intros i j ki kj _ Hi. discriminate. Qed.

Lemma distinct_keys_snoc keys k :
  distinct_keys keys -> key_in k keys = false -> distinct_keys (keys ++ [k]).
Proof.
  intros Hd Hk i j ki kj Hlt Hi Hj.
  destruct (decide (j < length keys)) as [Hj'|Hj'].
  - rewrite lookup_app_l in Hj by exact Hj'.
    rewrite lookup_app_l in Hi by lia. eauto.
  - assert (i < length keys) as Hi'.
    { apply lookup_lt_Some in Hj. rewrite length_app in Hj. cbn in Hj. lia. }
    rewrite lookup_app_l in Hi by exact Hi'.
    rewrite lookup_app_r in Hj by lia.
    destruct (j - length keys) as [|n] eqn:E; cbn in Hj; [|discriminate].
    injection Hj as <-.
    unfold key_in in Hk.
    assert (In ki keys) as Hin.
    { apply list_elem_of_In. eapply list_elem_of_lookup_2. exact Hi. }
    destruct (key_eq k ki) eqn:Heq; [|reflexivity].
    assert (existsb (key_eq k) keys = true) as Hex
      by (apply existsb_exists; eauto).
    congruence.
Qed.

Section MergeLoops.

Variable globals : list string.

Local Ltac no_member := let q := fresh in let H := fresh in intros q H; inversion H.

(** The loop over the parties of one record. *)
Lemma merge_parties_spec ps : forall m s m' s',
  merge_parties globals ps m s = Ok (m', s') ->
  NoDup (Spec.party_key <$> m) ->
  (forall k, k ∈ s <-> k ∈ Spec.party_key <$> m) ->
  NoDup (Spec.party_key <$> m')
  /\ (forall k, k ∈ s' <-> k ∈ Spec.party_key <$> m')
  /\ s ⊆ s'
  /\ (forall p, p ∈ ps -> Spec.party_key p = "" \/ Spec.party_key p ∈ s')
  /\ (forall p, p ∈ ps ->
        normalize_name globals (Party.name p) = Ok (Spec.party_key p)).
Proof.
  induction ps as [|p ps IH]; intros m s m' s' Hm Hnd Hseen.
  - injection Hm as <- <-.
    split; [exact Hnd|]. split; [exact Hseen|]. split; [reflexivity|].
    split; no_member.
  - cbn [merge_parties] in Hm.
    destruct (normalize_name globals (Party.name p)) as [k|e] eqn:Hn;
      [|discriminate].
    cbn [mbind result_bind] in Hm.
    pose proof (normalize_name_ok _ _ _ Hn) as ->.
    fold (Spec.party_key p) in Hm, Hn.
    destruct (PyStr.truthy (Spec.party_key p)
              && negb (bool_decide (Spec.party_key p ∈ s))) eqn:Hc.
    + apply andb_true_iff in Hc as [Ht Hns].
      apply negb_true_iff, bool_decide_eq_false in Hns.
      apply IH in Hm as (Hnd' & Hseen' & Hsub & Hcov & Hok).
      * split; [exact Hnd'|]. split; [exact Hseen'|].
        split; [etrans; [apply union_subseteq_l|exact Hsub]|]. split.
        -- intros q [->|Hq]%elem_of_cons; [|auto].
           right. apply Hsub, elem_of_union_r, elem_of_singleton. reflexivity.
        -- intros q [->|Hq]%elem_of_cons; auto.
      * rewrite fmap_app. apply NoDup_app. split; [exact Hnd|].
        split; [|apply NoDup_singleton].
        intros x Hx ->%list_elem_of_singleton. apply Hns, Hseen, Hx.
      * intros k. rewrite fmap_app, elem_of_app, elem_of_union,
          elem_of_singleton, Hseen. cbn. rewrite list_elem_of_singleton.
        reflexivity.
    + apply IH in Hm as (Hnd' & Hseen' & Hsub & Hcov & Hok); try assumption.
      split; [exact Hnd'|]. split; [exact Hseen'|]. split; [exact Hsub|]. split.
      * intros q [->|Hq]%elem_of_cons; [|auto].
        apply andb_false_iff in Hc as [Hc|Hc].
        -- left. destruct (Spec.party_key p); [reflexivity|discriminate].
        -- right. apply negb_false_iff, bool_decide_eq_true in Hc. auto.
      * intros q [->|Hq]%elem_of_cons; auto.
Qed.

(** The loop over the works of one record. *)
Lemma merge_works_spec ws : forall m s m' s',
  merge_works ws m s = (m', s') ->
  NoDup (Spec.work_key <$> m) ->
  (forall k, k ∈ s <-> k ∈ Spec.work_key <$> m) ->
  NoDup (Spec.work_key <$> m')
  /\ (forall k, k ∈ s' <-> k ∈ Spec.work_key <$> m')
  /\ s ⊆ s'
  /\ (forall w, w ∈ ws -> Spec.work_key w = "" \/ Spec.work_key w ∈ s').
Proof.
  induction ws as [|w ws IH]; intros m s m' s' Hm Hnd Hseen.
  - injection Hm as <- <-.
    split; [exact Hnd|]. split; [exact Hseen|]. split; [reflexivity|].
    no_member.
  - cbn [merge_works] in Hm. fold (Spec.work_key w) in Hm.
    destruct (PyStr.truthy (Spec.work_key w)
              && negb (bool_decide (Spec.work_key w ∈ s))) eqn:Hc.
    + apply andb_true_iff in Hc as [Ht Hns].
      apply negb_true_iff, bool_decide_eq_false in Hns.
      apply IH in Hm as (Hnd' & Hseen' & Hsub & Hcov).
      * split; [exact Hnd'|]. split; [exact Hseen'|].
        split; [etrans; [apply union_subseteq_l|exact Hsub]|].
        intros q [->|Hq]%elem_of_cons; [|auto].
        right. apply Hsub, elem_of_union_r, elem_of_singleton. reflexivity.
      * rewrite fmap_app. apply NoDup_app. split; [exact Hnd|].
        split; [|apply NoDup_singleton].
        intros x Hx ->%list_elem_of_singleton. apply Hns, Hseen, Hx.
      * intros k. rewrite fmap_app, elem_of_app, elem_of_union,
          elem_of_singleton, Hseen. cbn. rewrite list_elem_of_singleton.
        reflexivity.
    + apply IH in Hm as (Hnd' & Hseen' & Hsub & Hcov); try assumption.
      split; [exact Hnd'|]. split; [exact Hseen'|]. split; [exact Hsub|].
      intros q [->|Hq]%elem_of_cons; [|auto].
      apply andb_false_iff in Hc as [Hc|Hc].
      * left. destruct (Spec.work_key w); [reflexivity|discriminate].
      * right. apply negb_false_iff, bool_decide_eq_true in Hc. auto.
Qed.

(** The loop over the royalty shares of one record. *)
Lemma merge_shares_spec rs : forall m s m' s',
  merge_shares globals rs m s = Ok (m', s') ->
  s = code_share_key <$> m ->
  distinct_keys s ->
  s' = code_share_key <$> m'
  /\ distinct_keys s'
  /\ (forall k, key_in k s = true -> key_in k s' = true)
  /\ (forall r, r ∈ rs -> rounds_to_number r ->
        key_in (code_share_key r) s' = true)
  /\ (forall r, r ∈ rs ->
        normalize_name globals (RoyaltyShare.party_name r)
        = Ok (Spec.normalize (RoyaltyShare.party_name r))).
Proof.
  induction rs as [|r rs IH]; intros m s m' s' Hm Hs Hd.
  - injection Hm as <- <-.
    split; [exact Hs|]. split; [exact Hd|]. split; [auto|].
    split; no_member.
  - cbn [merge_shares] in Hm.
    destruct (normalize_name globals (RoyaltyShare.party_name r)) as [n|e] eqn:Hn;
      [|discriminate].
    cbn [mbind result_bind] in Hm.
    pose proof (normalize_name_ok _ _ _ Hn) as ->.
    fold (code_share_key r) in Hm.
    destruct (key_in (code_share_key r) s) eqn:Hin; cbn [negb] in Hm.
    + apply IH in Hm as (Hs' & Hd' & Hmono & Hcov & Hok); try assumption.
      split; [exact Hs'|]. split; [exact Hd'|]. split; [exact Hmono|]. split.
      * intros q [->|Hq]%elem_of_cons; auto.
      * intros q [->|Hq]%elem_of_cons; auto.
    + apply IH in Hm as (Hs' & Hd' & Hmono & Hcov & Hok).
      * split; [exact Hs'|]. split; [exact Hd'|]. split; [|split].
        -- intros k Hk. apply Hmono. rewrite key_in_app, Hk. reflexivity.
        -- intros q [->|Hq]%elem_of_cons Hnum; [|auto].
           apply Hmono. rewrite key_in_app. unfold key_in at 2.
           cbn [existsb]. rewrite (key_eq_refl _ Hnum). now rewrite orb_true_r.
        -- intros q [->|Hq]%elem_of_cons; auto.
      * rewrite fmap_app, Hs. reflexivity.
      * now apply distinct_keys_snoc.
Qed.

Lemma merge_inv_init : merge_inv merge_init.
Proof.
  split; cbn; try apply NoDup_nil_2; try reflexivity;
    try apply distinct_keys_nil.
  - intros k. split; intros H; inversion H.
  - intros k. split; intros H; inversion H.
Qed.

Lemma grows_refl st : grows st st.
Proof. split; auto. Qed.

Lemma grows_trans st1 st2 st3 : grows st1 st2 -> grows st2 st3 -> grows st1 st3.
Proof.
  intros [Hp Hw Hs] [Hp' Hw' Hs'].
  split; [etrans; eassumption|etrans; eassumption|auto].
Qed.

Lemma covered_grows st st' c : covered st c -> grows st st' -> covered st' c.
Proof.
  intros [Hp Hw Hs] [Gp Gw Gs]. split.
  - intros p Hin. destruct (Hp p Hin); auto.
  - intros w Hin. destruct (Hw w Hin); auto.
  - auto.
Qed.

(** One record merged into a state. *)
Lemma merge_contract_spec st c st' :
  merge_contract globals st c = Ok st' ->
  merge_inv st ->
  merge_inv st' /\ grows st st' /\ covered st' c /\ names_ok globals c.
Proof.
  intros Hm [Hpn Hps Hwn Hws Hss Hsd]. unfold merge_contract in Hm.
  destruct (merge_parties globals (ContractData.parties c)
              (merged_parties st) (seen_parties st)) as [[mp sp]|e] eqn:Ep;
    [|discriminate].
  cbn [mbind result_bind] in Hm.
  destruct (merge_works (ContractData.works c) (merged_works st) (seen_works st))
    as [mw sw] eqn:Ew.
  destruct (merge_shares globals (ContractData.royalty_shares c)
              (merged_royalty_shares st) (seen_shares st)) as [[mr sr]|e] eqn:Er;
    [|discriminate].
  cbn [mbind result_bind] in Hm. injection Hm as <-.
  apply merge_parties_spec in Ep as (Hpn' & Hps' & Gp & Cp & Op); try assumption.
  apply merge_works_spec in Ew as (Hwn' & Hws' & Gw & Cw); try assumption.
  apply merge_shares_spec in Er as (Hss' & Hsd' & Gs & Cs & Os); try assumption.
  split; [|split; [|split]]; split; cbn; assumption.
Qed.

(** All records merged, from any state. *)
Lemma merge_loop_spec cs : forall st st',
  merge_loop globals cs st = Ok st' ->
  merge_inv st ->
  merge_inv st' /\ grows st st'
  /\ (forall c, c ∈ cs -> covered st' c /\ names_ok globals c).
Proof.
  induction cs as [|c cs IH]; intros st st' Hm Hinv.
  - injection Hm as <-. split; [exact Hinv|]. split; [apply grows_refl|].
    intros c H; inversion H.
  - cbn [merge_loop] in Hm.
    destruct (merge_contract globals st c) as [st1|e] eqn:E1; [|discriminate].
    cbn [mbind result_bind] in Hm.
    apply merge_contract_spec in E1 as (Hinv1 & G1 & C1 & O1); [|exact Hinv].
    apply IH in Hm as (Hinv' & G' & Hall); [|exact Hinv1].
    split; [exact Hinv'|]. split; [eapply grows_trans; eassumption|].
    intros c' [->|Hin]%elem_of_cons; [|auto].
    split; [eapply covered_grows; eassumption|exact O1].
Qed.

(** A record all of whose entries are accounted for changes no list. *)
Lemma merge_parties_again ps m s :
  (forall p, p ∈ ps ->
     normalize_name globals (Party.name p) = Ok (Spec.party_key p)) ->
  (forall p, p ∈ ps -> Spec.party_key p = "" \/ Spec.party_key p ∈ s) ->
  merge_parties globals ps m s = Ok (m, s).
Proof.
  induction ps as [|p ps IH]; intros Hok Hcov; [reflexivity|].
  cbn [merge_parties]. rewrite (Hok p) by apply list_elem_of_here.
  cbn [mbind result_bind].
  destruct (Hcov p (list_elem_of_here _ _)) as [->|Hin].
  - cbn [PyStr.truthy andb].
    apply IH; intros q Hq; [apply Hok|apply Hcov]; now apply list_elem_of_further.
  - rewrite (bool_decide_eq_true_2 _ Hin). cbn [negb]. rewrite andb_false_r.
    apply IH; intros q Hq; [apply Hok|apply Hcov]; now apply list_elem_of_further.
Qed.

Lemma merge_works_again ws m s :
  (forall w, w ∈ ws -> Spec.work_key w = "" \/ Spec.work_key w ∈ s) ->
  merge_works ws m s = (m, s).
Proof.
  induction ws as [|w ws IH]; intros Hcov; [reflexivity|].
  cbn [merge_works]. fold (Spec.work_key w).
  destruct (Hcov w (list_elem_of_here _ _)) as [->|Hin].
  - cbn [PyStr.truthy andb].
    apply IH; intros q Hq; apply Hcov; now apply list_elem_of_further.
  - rewrite (bool_decide_eq_true_2 _ Hin). cbn [negb]. rewrite andb_false_r.
    apply IH; intros q Hq; apply Hcov; now apply list_elem_of_further.
Qed.

Lemma merge_shares_again rs m s :
  (forall r, r ∈ rs ->
     normalize_name globals (RoyaltyShare.party_name r)
     = Ok (Spec.normalize (RoyaltyShare.party_name r))) ->
  (forall r, r ∈ rs -> key_in (code_share_key r) s = true) ->
  merge_shares globals rs m s = Ok (m, s).
Proof.
  induction rs as [|r rs IH]; intros Hok Hcov; [reflexivity|].
  cbn [merge_shares]. rewrite (Hok r) by apply list_elem_of_here.
  cbn [mbind result_bind]. fold (code_share_key r).
  rewrite (Hcov r) by apply list_elem_of_here. cbn [negb].
  apply IH; intros q Hq; [apply Hok|apply Hcov]; now apply list_elem_of_further.
Qed.

Lemma merge_contract_again st c :
  covered st c ->
  Forall rounds_to_number (ContractData.royalty_shares c) ->
  names_ok globals c ->
  exists st', merge_contract globals st c = Ok st' /\ same_lists st st'.
Proof.
  intros [Cp Cw Cs] Hnum [Op Os]. unfold merge_contract.
  rewrite merge_parties_again by assumption. cbn [mbind result_bind].
  rewrite merge_works_again by assumption.
  rewrite merge_shares_again; [|assumption|].
  - cbn [mbind result_bind]. eexists. split; [reflexivity|].
    repeat split.
  - intros r Hr. apply Cs; [exact Hr|].
    rewrite Forall_forall in Hnum. now apply Hnum.
Qed.

(** The only exception the merge raises is the [NameError] of line 248. *)
Lemma merge_parties_err ps : forall m s e,
  merge_parties globals ps m s = Err e -> e = NameError "re".
Proof.
  induction ps as [|p ps IH]; intros m s e Hm; [discriminate|].
  cbn [merge_parties] in Hm.
  destruct (normalize_name globals (Party.name p)) as [k|e'] eqn:Hn.
  - cbn [mbind result_bind] in Hm.
    destruct (_ && _) in Hm; eapply IH; exact Hm.
  - injection Hm as <-. eapply normalize_name_err; exact Hn.
Qed.

Lemma merge_shares_err rs : forall m s e,
  merge_shares globals rs m s = Err e -> e = NameError "re".
Proof.
  induction rs as [|r rs IH]; intros m s e Hm; [discriminate|].
  cbn [merge_shares] in Hm.
  destruct (normalize_name globals (RoyaltyShare.party_name r)) as [k|e'] eqn:Hn.
  - cbn [mbind result_bind] in Hm.
    destruct (negb _) in Hm; eapply IH; exact Hm.
  - injection Hm as <-. eapply normalize_name_err; exact Hn.
Qed.

Lemma merge_contract_err st c e :
  merge_contract globals st c = Err e -> e = NameError "re".
Proof.
  unfold merge_contract.
  destruct (merge_parties _ _ _ _) as [[mp sp]|e'] eqn:Ep.
  - cbn [mbind result_bind]. destruct (merge_works _ _ _) as [mw sw].
    destruct (merge_shares _ _ _ _) as [[mr sr]|e''] eqn:Er; [discriminate|].
    intros [= <-]. eapply merge_shares_err; exact Er.
  - intros [= <-]. eapply merge_parties_err; exact Ep.
Qed.

Lemma merge_loop_err cs : forall st e,
  merge_loop globals cs st = Err e -> e = NameError "re".
Proof.
  induction cs as [|c cs IH]; intros st e Hm; [discriminate|].
  cbn [merge_loop] in Hm.
  destruct (merge_contract globals st c) as [st1|e'] eqn:E1.
  - eapply IH; exact Hm.
  - injection Hm as <-. eapply merge_contract_err; exact E1.
Qed.

(** With [re] bound every loop runs to its end. *)
Lemma merge_parties_total ps : forall m s,
  bound globals "re" = true -> exists x, merge_parties globals ps m s = Ok x.
Proof.
  induction ps as [|p ps IH]; intros m s Hb; [eexists; reflexivity|].
  cbn [merge_parties]. rewrite normalize_name_bound by exact Hb.
  cbn [mbind result_bind]. destruct (_ && _); now apply IH.
Qed.

Lemma merge_shares_total rs : forall m s,
  bound globals "re" = true -> exists x, merge_shares globals rs m s = Ok x.
Proof.
  induction rs as [|r rs IH]; intros m s Hb; [eexists; reflexivity|].
  cbn [merge_shares]. rewrite normalize_name_bound by exact Hb.
  cbn [mbind result_bind]. destruct (negb _); now apply IH.
Qed.

Lemma merge_loop_total cs : forall st,
  bound globals "re" = true -> exists st', merge_loop globals cs st = Ok st'.
Proof.
  induction cs as [|c cs IH]; intros st Hb; [eexists; reflexivity|].
  cbn [merge_loop]. unfold merge_contract.
  destruct (merge_parties_total (ContractData.parties c)
              (merged_parties st) (seen_parties st) Hb) as [[mp sp] ->].
  cbn [mbind result_bind]. destruct (merge_works _ _ _) as [mw sw].
  destruct (merge_shares_total (ContractData.royalty_shares c)
              (merged_royalty_shares st) (seen_shares st) Hb) as [[mr sr] ->].
  cbn [mbind result_bind]. now apply IH.
Qed.

End MergeLoops.

(** The record [merge_contracts] returns holds the lists of the final
    state. *)
Lemma merge_contracts_inv globals contracts merged :
  merge_contracts globals contracts = Ok merged ->
  exists st,
    merge_loop globals contracts merge_init = Ok st
    /\ ContractData.parties merged = merged_parties st
    /\ ContractData.works merged = merged_works st
    /\ ContractData.royalty_shares merged = merged_royalty_shares st.
Proof.
  unfold merge_contracts.
  destruct (merge_loop globals contracts merge_init) as [st|e]; [|discriminate].
  cbn [mbind result_bind]. intros [= <-]. exists st. repeat split.
Qed.

Lemma merge_contracts_lists globals contracts st :
  merge_loop globals contracts merge_init = Ok st ->
  merged_lists (merge_contracts globals contracts)
  = Ok (merged_parties st, merged_works st, merged_royalty_shares st).
Proof. intros H. unfold merged_lists, merge_contracts. now rewrite H. Qed.

(** With [re] bound the merge returns a record, and an exception of the
    merge is always the [NameError] on [re]. *)
Lemma merge_contracts_total globals contracts :
  bound globals "re" = true ->
  exists merged, merge_contracts globals contracts = Ok merged.
Proof.
  intros Hb. unfold merge_contracts.
  destruct (merge_loop_total globals contracts merge_init Hb) as [st ->].
  eexists. reflexivity.
Qed.

Lemma merge_contracts_err globals contracts e :
  merge_contracts globals contracts = Err e -> e = NameError "re".
Proof.
  unfold merge_contracts.
  destruct (merge_loop globals contracts merge_init) as [st|e'] eqn:E;
    [discriminate|].
  intros [= <-]. eapply merge_loop_err; exact E.
Qed.

(** Without [re] a record with a named party makes the merge raise. *)
Lemma merge_contracts_named_party globals contracts c p :
  bound globals "re" = false ->
  c ∈ contracts -> p ∈ ContractData.parties c -> PyStr.truthy (Party.name p) = true ->
  merge_contracts globals contracts = Err (NameError "re").
Proof.
  intros Hb Hc Hp Hn.
  destruct (merge_contracts globals contracts) as [merged|e] eqn:E.
  - apply merge_contracts_inv in E as (st & Hloop & _).
    apply merge_loop_spec in Hloop as (_ & _ & Hall); [|apply merge_inv_init].
    destruct (Hall c Hc) as [_ [Hok _]].
    specialize (Hok p Hp).
    now rewrite (normalize_name_unbound globals _ Hb Hn) in Hok.
  - f_equal. eapply merge_contracts_err; exact E.
Qed.

(** Shares at different positions whose keys are not [==] have different
    keys when one of the percentages rounds to a number. *)
Lemma distinct_number_keys (shares : list RoyaltyShare.t) :
  (forall (i j : nat) ri rj,
      i <> j -> shares !! i = Some ri -> shares !! j = Some rj ->
      key_eq (code_share_key ri) (code_share_key rj) = false) ->
  forall (i j : nat) ri rj,
    i <> j -> shares !! i = Some ri -> shares !! j = Some rj ->
    rounds_to_number ri -> code_share_key ri <> code_share_key rj.
Proof.
  intros Hd i j ri rj Hne Hi Hj Hnum Heq.
  specialize (Hd i j ri rj Hne Hi Hj).
  rewrite <- Heq, (key_eq_refl ri Hnum) in Hd. discriminate.
Qed.

Lemma number_keys_nodup (shares : list RoyaltyShare.t) :
  (forall (i j : nat) ri rj,
      i <> j -> shares !! i = Some ri -> shares !! j = Some rj ->
      rounds_to_number ri -> code_share_key ri <> code_share_key rj) ->
  NoDup (code_share_key <$> List.filter number_share shares).
Proof.
  induction shares as [|r shares IH]; intros Hd; [constructor|].
  assert (Htail : NoDup (code_share_key <$> List.filter number_share shares)).
  { apply IH. intros i j ri rj Hne Hi Hj. apply (Hd (S i) (S j)); [lia|easy..]. }
  cbn [List.filter]. destruct (number_share r) eqn:Hr; [|exact Htail].
  rewrite fmap_cons. apply NoDup_cons. split; [|exact Htail].
  intros (r' & Heq & Hin)%list_elem_of_fmap.
  apply list_elem_of_In, filter_In in Hin as [Hin _].
  apply list_elem_of_In, list_elem_of_lookup in Hin as [j Hj].
  now apply (Hd 0 (S j) r r').
Qed.

(** C1, as the code has it.  In the record [merge_contracts] returns no
    two parties have the same normalized name and no two works the same
    trimmed lower-cased title.  The key of a share is its normalized party
    name, its royalty type lower-cased and trimmed (parenthesised text is
    kept), and its percentage rounded to two decimals: no two shares at
    different positions have keys that are [==], hence no two shares have
    the same key when the rounded percentage of one of them is a number,
    and the keys of the shares with a number as rounded percentage are
    pairwise different.  Shares whose percentage is [nan] are left out of
    the last two clauses: their keys are [==] to no key. *)
Theorem merged_record_has_distinct_keys globals contracts merged :
  merge_contracts globals contracts = Ok merged ->
  NoDup (Spec.party_key <$> ContractData.parties merged)
  /\ NoDup (Spec.work_key <$> ContractData.works merged)
  /\ (forall i j ri rj,
        i <> j ->
        ContractData.royalty_shares merged !! i = Some ri ->
        ContractData.royalty_shares merged !! j = Some rj ->
        key_eq (code_share_key ri) (code_share_key rj) = false)
  /\ (forall i j ri rj,
        i <> j ->
        ContractData.royalty_shares merged !! i = Some ri ->
        ContractData.royalty_shares merged !! j = Some rj ->
        rounds_to_number ri ->
        code_share_key ri <> code_share_key rj)
  /\ NoDup (code_share_key
              <$> List.filter number_share (ContractData.royalty_shares merged)).
Proof.
  intros (st & Hloop & -> & -> & ->)%merge_contracts_inv.
  apply merge_loop_spec in Hloop as ([Hpn _ Hwn _ Hss Hsd] & _ & _);
    [|apply merge_inv_init].
  split; [exact Hpn|]. split; [exact Hwn|].
  assert (Hd : forall i j ri rj,
             i <> j ->
             merged_royalty_shares st !! i = Some ri ->
             merged_royalty_shares st !! j = Some rj ->
             key_eq (code_share_key ri) (code_share_key rj) = false).
  { intros i j ri rj Hne Hi Hj.
    assert (seen_shares st !! i = Some (code_share_key ri)) as Hi'
      by (now rewrite Hss, list_lookup_fmap, Hi).
    assert (seen_shares st !! j = Some (code_share_key rj)) as Hj'
      by (now rewrite Hss, list_lookup_fmap, Hj).
    destruct (decide (i < j)) as [Hlt|Hge].
    - rewrite key_eq_sym. eapply Hsd; eassumption.
    - eapply (Hsd j i); [lia|eassumption..]. }
  split; [exact Hd|].
  pose proof (distinct_number_keys _ Hd) as Hk.
  split; [exact Hk|]. now apply number_keys_nodup.
Qed.

(** The theorem at records of the module as shipped, which name nobody:
    the second repeats shares and a work title of the first in other
    spellings.  With [re] bound, "JANE DOE (writer)" is left out after
    "Jane Doe". *)
Lemma merged_record_has_distinct_keys_witness :
  merged_lists (merge_contracts globals_with_re
                  [ Ex.jane_contract; More.writer_contract ])
  = Ok ([ Ex.jane ], [ Ex.home ], [ Ex.streaming "Jane Doe" 50 ])
  /\ merge_contracts module_globals
       [ Ex.territories_contract; Ex.unnamed_contract; Ex.unnamed_contract ]
     = Ok Ex.unnamed_merged
  /\ NoDup (Spec.party_key <$> ContractData.parties Ex.unnamed_merged)
  /\ NoDup (Spec.work_key <$> ContractData.works Ex.unnamed_merged)
  /\ (forall i j ri rj,
        i <> j ->
        ContractData.royalty_shares Ex.unnamed_merged !! i = Some ri ->
        ContractData.royalty_shares Ex.unnamed_merged !! j = Some rj ->
        key_eq (code_share_key ri) (code_share_key rj) = false)
  /\ (forall i j ri rj,
        i <> j ->
        ContractData.royalty_shares Ex.unnamed_merged !! i = Some ri ->
        ContractData.royalty_shares Ex.unnamed_merged !! j = Some rj ->
        rounds_to_number ri ->
        code_share_key ri <> code_share_key rj)
  /\ NoDup (code_share_key
              <$> List.filter number_share
                    (ContractData.royalty_shares Ex.unnamed_merged)).
Proof.
  split; [vm_compute; reflexivity|]. split; [vm_compute; reflexivity|].
  apply (merged_record_has_distinct_keys module_globals
           [ Ex.territories_contract; Ex.unnamed_contract; Ex.unnamed_contract ]
           Ex.unnamed_merged).
  vm_compute. reflexivity.
Defined.

(** C1 as stated fails: two shares whose royalty types differ only in a
    parenthesised annotation are both kept, although the key of the claim,
    which strips the annotation from the royalty type, is the same for
    both.  This holds in the module as shipped (shares without a party
    name) and with [re] bound (shares of Jane Doe). *)
Lemma annotated_royalty_types_are_both_kept :
  merged_lists (merge_contracts module_globals [ Ex.territories_contract ])
  = Ok ([], [], [ Ex.us_share; Ex.uk_share ])
  /\ key_eq (Spec.share_key Ex.us_share) (Spec.share_key Ex.uk_share) = true
  /\ merged_lists (merge_contracts globals_with_re [ Ex.jane_territories ])
     = Ok ([ Ex.jane ], [], [ Ex.jane_us; Ex.jane_uk ])
  /\ key_eq (Spec.share_key Ex.jane_us) (Spec.share_key Ex.jane_uk) = true.
Proof. repeat split; vm_compute; reflexivity. Qed.

(** For a record [c] whose shares all have a rounded percentage that is
    a number, merging [c] with itself gives the same parties, works and
    royalty shares as merging [c] alone (or raises the same exception). *)
Lemma merge_twice_same_lists globals c :
  Forall rounds_to_number (ContractData.royalty_shares c) ->
  merged_lists (merge_contracts globals [ c; c ])
  = merged_lists (merge_contracts globals [ c ]).
Proof.
  intros Hnum.
  destruct (merge_contract globals merge_init c) as [st1|e] eqn:E1.
  - pose proof E1 as Hspec.
    apply merge_contract_spec in Hspec as (_ & _ & Hcov & Hok);
      [|apply merge_inv_init].
    destruct (merge_contract_again globals st1 c Hcov Hnum Hok)
      as (st2 & E2 & Hp & Hw & Hs & _).
    rewrite (merge_contracts_lists globals [ c; c ] st2),
      (merge_contracts_lists globals [ c ] st1).
    + now rewrite Hp, Hw, Hs.
    + cbn [merge_loop]. now rewrite E1.
    + cbn [merge_loop]. rewrite E1. cbn [mbind result_bind]. now rewrite E2.
  - unfold merged_lists, merge_contracts. cbn [merge_loop]. now rewrite E1.
Qed.

(** Specification example 2, with [re] bound. *)
Example merge_twice_jane_doe :
  merged_lists (merge_contracts globals_with_re [ Ex.jane_contract; Ex.jane_contract ])
  = Ok ([ Ex.jane ], [ Ex.home ], [ Ex.streaming "Jane Doe" 50 ]).
Proof. vm_compute. reflexivity. Qed.

(** C5 fails on the code.  The key of a share holds its percentage
    rounded to two decimals and membership in [seen_shares] is decided by
    [==]; the key of a share whose percentage is [nan] is [==] to no key,
    itself included, so merging the record with itself keeps that share
    twice, against the comments of lines 253 and 272 ("prevent duplicate
    (party, type, %) combos", "avoid duplicates").  For every record whose
    percentages round to numbers the merge is idempotent, as the claim
    says. *)
Theorem nan_share_is_kept_twice :
  merged_lists (merge_contracts module_globals [ Ex.nan_contract; Ex.nan_contract ])
  = Ok ([], [], [ Ex.nan_share; Ex.nan_share ])
  /\ merged_lists (merge_contracts module_globals [ Ex.nan_contract ])
     = Ok ([], [], [ Ex.nan_share ])
  /\ key_eq (code_share_key Ex.nan_share) (code_share_key Ex.nan_share) = false
  /\ (forall globals c,
        Forall rounds_to_number (ContractData.royalty_shares c) ->
        merged_lists (merge_contracts globals [ c; c ])
        = merged_lists (merge_contracts globals [ c ])).
Proof.
  split; [vm_compute; reflexivity|]. split; [vm_compute; reflexivity|].
  split; [vm_compute; reflexivity|]. exact merge_twice_same_lists.
Qed.

(** C8 fails on the code.  The module does not import [re], so
    [normalize_name] raises [NameError] on the first non-empty name: the
    merge of a single well-formed record naming the party "Jane Doe"
    raises instead of returning a record. *)
Theorem merge_contracts_raises_name_error :
  bound module_globals "re" = false
  /\ merge_contracts module_globals [ Ex.jane_contract ] = Err (NameError "re").
Proof. split; vm_compute; reflexivity. Qed.

(** C9 fails on the code.  In the module as shipped every input that
    holds a Party with a non-empty name makes [merge_contracts] raise the
    [NameError] on [re] (line 248, called from line 260): no merged record
    is returned, so the party is represented in no merged parties list.
    This is the defect of C8. *)
Theorem named_party_is_not_merged contracts c p :
  c ∈ contracts ->
  p ∈ ContractData.parties c ->
  Party.name p <> "" ->
  merge_contracts module_globals contracts = Err (NameError "re")
  /\ forall merged, merge_contracts module_globals contracts <> Ok merged.
Proof.
  intros Hc Hp Hname.
  assert (merge_contracts module_globals contracts = Err (NameError "re")) as ->.
  { apply (merge_contracts_named_party module_globals contracts c p);
      [reflexivity|exact Hc|exact Hp|now apply truthy_nonempty]. }
  split; [reflexivity|discriminate].
Qed.

Lemma named_party_is_not_merged_witness :
  merge_contracts module_globals [ Ex.territories_contract; Ex.jane_contract ]
  = Err (NameError "re")
  /\ forall merged,
       merge_contracts module_globals [ Ex.territories_contract; Ex.jane_contract ]
       <> Ok merged.
Proof.
  apply (named_party_is_not_merged
           [ Ex.territories_contract; Ex.jane_contract ] Ex.jane_contract Ex.jane).
  - apply list_elem_of_further, list_elem_of_here.
  - apply list_elem_of_here.
  - discriminate.
Defined.

(** With [re] bound the merge returns, and the guard of line 261 decides:
    every Party of an input record whose normalized name is non-empty is
    represented in the merged parties by a Party with the same normalized
    name; a Party whose name is a parenthesised annotation only has an
    empty normalized name and is left out. *)
Lemma merged_parties_keep_normalized_names globals contracts merged c p :
  merge_contracts globals contracts = Ok merged ->
  c ∈ contracts ->
  p ∈ ContractData.parties c ->
  Spec.party_key p <> "" ->
  exists q,
    q ∈ ContractData.parties merged /\ Spec.party_key q = Spec.party_key p.
Proof.
  intros (st & Hloop & -> & _)%merge_contracts_inv Hc Hp Hkey.
  apply merge_loop_spec in Hloop as ([_ Hps _ _ _ _] & _ & Hall);
    [|apply merge_inv_init].
  destruct (Hall c Hc) as [[Hcov _ _] _].
  destruct (Hcov p Hp) as [Hempty|Hseen]; [contradiction|].
  apply Hps, list_elem_of_fmap in Hseen as (q & Heq & Hq).
  exists q. split; [exact Hq|now symmetry].
Qed.

Example annotation_only_party_is_dropped :
  PyStr.truthy (Party.name Ex.annotated) = true
  /\ merged_lists (merge_contracts globals_with_re [ Ex.annotated_contract ])
     = Ok ([], [], [])
  /\ merge_contracts module_globals [ Ex.annotated_contract ]
     = Err (NameError "re").
Proof. repeat split; vm_compute; reflexivity. Qed.

(** * Further properties of the code *)

(** ** Statement Ingestor: columns and errors *)

Section Columns.

Lemma find_title_column_member headers header :
  _find_title_column headers = Ok header -> In header headers.
Proof.
  induction headers as [|h hs IH]; cbn [_find_title_column]; [discriminate|].
  destruct (existsb _ title_variations).
  - intros [= ->]. now left.
  - intros H. right. now apply IH.
Qed.

Lemma find_title_column_err headers e :
  _find_title_column headers = Err e ->
  e = ValueError could_not_auto_detect_title_column.
Proof.
  induction headers as [|h hs IH]; cbn [_find_title_column]; [congruence|].
  destruct (existsb _ title_variations); [discriminate|exact IH].
Qed.

Lemma first_pass_member headers header :
  first_pass headers = Some header -> In header headers.
Proof.
  rewrite first_pass_find. intros H. now apply find_some in H.
Qed.

Lemma second_pass_member headers header :
  second_pass headers = Some header -> In header headers.
Proof.
  rewrite second_pass_find. intros H. now apply find_some in H.
Qed.

Lemma find_payable_column_member headers header :
  _find_payable_column headers = Ok header -> In header headers.
Proof.
  unfold _find_payable_column.
  destruct (first_pass headers) as [h|] eqn:E1.
  - intros [= <-]. now apply first_pass_member.
  - destruct (second_pass headers) as [h|] eqn:E2; [|discriminate].
    intros [= <-]. now apply second_pass_member.
Qed.

Lemma list_index_member l x : In x l -> exists i, list_index l x = Some i.
Proof.
  induction l as [|y l IH]; intros Hin; [destruct Hin|].
  cbn [list_index]. destruct (String.eqb y x) eqn:E; [eauto|].
  destruct Hin as [->|Hin]; [rewrite String.eqb_refl in E; discriminate|].
  destruct (IH Hin) as [i ->]. eauto.
Qed.

Lemma list_index_lt l x i : list_index l x = Some i -> i < length l.
Proof.
  revert i. induction l as [|y l IH]; intros i; cbn [list_index]; [discriminate|].
  destruct (String.eqb y x).
  - intros [= <-]. cbn. lia.
  - destruct (list_index l x) as [j|]; [|discriminate].
    intros [= <-]. cbn. specialize (IH j eq_refl). lia.
Qed.


Lemma extract_headers_length row : length (extract_headers row) <= length row.
Proof.
  induction row as [|c row IH]; cbn [extract_headers length]; [lia|].
  destruct (Cell.truthy c); cbn [length]; lia.
Qed.

Lemma sum_rows_err title_idx payable_idx rows : forall song_totals e,
  sum_rows title_idx payable_idx rows song_totals = Err e ->
  e = IndexError \/ e = OverflowError.
Proof.
  induction rows as [|row rows IH]; intros song_totals e; cbn [sum_rows];
    [discriminate|].
  destruct (nth_error row title_idx) as [tcell|]; [|intros [= <-]; now left].
  destruct (Cell.truthy tcell); [|apply IH].
  destruct (nth_error row payable_idx) as [pcell|]; [|intros [= <-]; now left].
  destruct (Cell.is_not_none pcell); [|apply IH].
  destruct (Cell.float pcell); [apply IH|apply IH|intros [= <-]; now right].
Qed.

Lemma sum_rows_wide title_idx payable_idx rows : forall song_totals e,
  Forall (fun row => title_idx < length row /\ payable_idx < length row) rows ->
  sum_rows title_idx payable_idx rows song_totals = Err e -> e = OverflowError.
Proof.
  induction rows as [|row rows IH]; intros song_totals e Hwide;
    cbn [sum_rows]; [discriminate|].
  apply Forall_cons in Hwide as [[Ht Hp] Hwide].
  destruct (nth_error row title_idx) as [tcell|] eqn:Et.
  2:{ apply nth_error_None in Et. lia. }
  destruct (nth_error row payable_idx) as [pcell|] eqn:Ep.
  2:{ apply nth_error_None in Ep. lia. }
  destruct (Cell.truthy tcell); [|now apply IH].
  destruct (Cell.is_not_none pcell); [|now apply IH].
  destruct (Cell.float pcell); [now apply IH|now apply IH|now intros [= <-]].
Qed.

(** What a successful read went through. *)
Lemma read_royalty_statement_inv sh tc pc song_totals :
  read_royalty_statement sh tc pc = Ok song_totals ->
  exists title_idx payable_idx,
    column_indices sh tc pc = Ok (title_idx, payable_idx)
    /\ sum_rows title_idx payable_idx (data_rows sh) [] = Ok song_totals.
Proof.
  unfold read_royalty_statement, read_body, column_indices.
  set (headers := extract_headers (header_row sh)).
  destruct (match tc with None => _ | Some c => _ end) as [tcol|e];
    cbn [mbind result_bind]; [|discriminate].
  destruct (match pc with None => _ | Some c => _ end) as [pcol|e];
    cbn [mbind result_bind]; [|discriminate].
  destruct (list_index headers tcol) as [ti|] eqn:Eti; [|discriminate].
  destruct (list_index headers pcol) as [pi|] eqn:Epi; [|discriminate].
  destruct (sum_rows ti pi (data_rows sh) []) as [d|e] eqn:Es; [|discriminate].
  intros [= <-]. exists ti, pi. split; [reflexivity|assumption].
Qed.

End Columns.

Lemma find_payable_column_err headers e :
  _find_payable_column headers = Err e ->
  e = ValueError could_not_auto_detect_payable_column.
Proof.
  unfold _find_payable_column.
  destruct (first_pass headers); [discriminate|].
  destruct (second_pass headers); [discriminate|congruence].
Qed.

(** X1. With automatic column detection the read never fails with
    "Could not find required columns": a column that was detected is one
    of the headers kept, so the lookups of lines 94-95 succeed and line 97
    is not reached.  This holds whatever else the read raises. *)
Theorem read_auto_detect_finds_columns workbook e :
  read_royalty_statement_file workbook None None = Err e ->
  e <> Exception (ValueError could_not_find_required_columns).
Proof.
  destruct workbook as [sh|]; cbn [read_royalty_statement_file];
    [|intros [= <-]; discriminate].
  unfold read_royalty_statement, read_body.
  set (headers := extract_headers (header_row sh)).
  destruct (_find_title_column headers) as [tcol|e1] eqn:Et;
    cbn [mbind result_bind].
  2:{ intros [= <-]. apply find_title_column_err in Et. subst e1. discriminate. }
  destruct (_find_payable_column headers) as [pcol|e2] eqn:Ep;
    cbn [mbind result_bind].
  2:{ intros [= <-]. apply find_payable_column_err in Ep. subst e2. discriminate. }
  apply find_title_column_member, list_index_member in Et as [ti ->].
  apply find_payable_column_member, list_index_member in Ep as [pi ->].
  destruct (sum_rows ti pi (data_rows sh) []) as [d|e3] eqn:Es; [discriminate|].
  intros [= <-]. apply sum_rows_err in Es as [->| ->]; discriminate.
Qed.

(** X2. On a sheet whose data rows are at least as wide as the header
    row the read never fails with [IndexError]: the indices of the two
    columns are positions among the headers kept, which are no more than
    the cells of row 1, so no row is too short for them. *)
Theorem read_rectangular_no_index_error sh tc pc e :
  Forall (fun row => length (header_row sh) <= length row) (data_rows sh) ->
  read_royalty_statement sh tc pc = Err e ->
  e <> Exception IndexError.
Proof.
  intros Hwide.
  unfold read_royalty_statement, read_body.
  set (headers := extract_headers (header_row sh)).
  destruct (match tc with None => _ | Some c => _ end) as [tcol|e1] eqn:Et;
    cbn [mbind result_bind].
  2:{ intros [= <-]. destruct tc; [discriminate|].
      apply find_title_column_err in Et. subst e1. discriminate. }
  destruct (match pc with None => _ | Some c => _ end) as [pcol|e2] eqn:Ep;
    cbn [mbind result_bind].
  2:{ intros [= <-]. destruct pc; [discriminate|].
      apply find_payable_column_err in Ep. subst e2. discriminate. }
  destruct (list_index headers tcol) as [ti|] eqn:Eti;
    [|intros [= <-]; discriminate].
  destruct (list_index headers pcol) as [pi|] eqn:Epi;
    [|intros [= <-]; discriminate].
  apply list_index_lt in Eti, Epi.
  pose proof (extract_headers_length (header_row sh)) as Hlen.
  fold headers in Hlen.
  destruct (sum_rows ti pi (data_rows sh) []) as [d|e3] eqn:Es; [discriminate|].
  intros [= <-]. apply sum_rows_wide in Es; [subst e3; discriminate|].
  eapply List.Forall_impl; [|exact Hwide]. cbn. intros row Hrow. lia.
Qed.

(** ** Statement Ingestor: the aggregate *)

Section Aggregate.

Lemma dict_get_set_same d k v default :
  Dict.get (Dict.set d k v) k default = v.
Proof.
  induction d as [|[k' v'] d IH]; cbn [Dict.set Dict.get].
  - now rewrite String.eqb_refl.
  - destruct (String.eqb k' k) eqn:E; cbn [Dict.get]; rewrite E; auto.
Qed.

Lemma dict_get_set_other d k v k' default :
  k' <> k -> Dict.get (Dict.set d k v) k' default = Dict.get d k' default.
Proof.
  intros Hne. induction d as [|[k0 v0] d IH]; cbn [Dict.set Dict.get].
  - destruct (String.eqb k k') eqn:E; [|reflexivity].
    apply String.eqb_eq in E. congruence.
  - destruct (String.eqb k0 k) eqn:E; cbn [Dict.get].
    + apply String.eqb_eq in E. subst k0.
      destruct (String.eqb k k') eqn:E'; [|reflexivity].
      apply String.eqb_eq in E'. congruence.
    + now rewrite IH.
Qed.

Lemma dict_keys_set d k v :
  map fst (Dict.set d k v)
  = if existsb (String.eqb k) (map fst d) then map fst d else map fst d ++ [ k ].
Proof.
  induction d as [|[k' v'] d IH]; cbn [Dict.set map fst existsb]; [reflexivity|].
  rewrite (String.eqb_sym k k').
  destruct (String.eqb k' k); cbn [map fst orb]; [reflexivity|].
  rewrite IH. now destruct (existsb (String.eqb k) (map fst d)).
Qed.

(** A row that the loop gets through contributes its [row_entry]. *)
Lemma sum_rows_step title_idx payable_idx row rows song_totals song_totals' :
  sum_rows title_idx payable_idx (row :: rows) song_totals = Ok song_totals' ->
  sum_rows title_idx payable_idx rows
    match row_entry title_idx payable_idx row with
    | Some (title, amount) =>
        Dict.set song_totals title (Dict.get song_totals title 0 + amount)%float
    | None => song_totals
    end = Ok song_totals'.
Proof.
  cbn [sum_rows]. unfold row_entry.
  destruct (nth_error row title_idx) as [tcell|]; [|discriminate].
  destruct (Cell.truthy tcell); cbn [andb].
  2:{ now destruct (nth_error row payable_idx). }
  destruct (nth_error row payable_idx) as [pcell|]; [|discriminate].
  destruct (Cell.is_not_none pcell); [|auto].
  now destruct (Cell.float pcell).
Qed.

Lemma sum_rows_totals title_idx payable_idx rows : forall song_totals song_totals',
  sum_rows title_idx payable_idx rows song_totals = Ok song_totals' ->
  forall title,
    Dict.get song_totals' title 0
    = float_sum (Dict.get song_totals title 0)
        (amounts_of title (row_entries title_idx payable_idx rows)).
Proof.
  induction rows as [|row rows IH]; intros d d' Hsum title.
  - injection Hsum as <-. reflexivity.
  - apply sum_rows_step in Hsum. apply IH with (title := title) in Hsum.
    rewrite Hsum. unfold row_entries. cbn [omap list_omap].
    fold (row_entries title_idx payable_idx rows).
    destruct (row_entry title_idx payable_idx row) as [[t a]|]; [|reflexivity].
    unfold amounts_of. cbn [List.filter fst].
    destruct (String.eqb t title) eqn:E.
    + apply String.eqb_eq in E. subst t. cbn [map snd float_sum fold_left].
      now rewrite dict_get_set_same.
    + rewrite dict_get_set_other; [reflexivity|].
      intros ->. now rewrite String.eqb_refl in E.
Qed.

Lemma first_seen_ext seen seen' titles :
  (forall t, existsb (String.eqb t) seen = existsb (String.eqb t) seen') ->
  first_seen seen titles = first_seen seen' titles.
Proof.
  revert seen seen'. induction titles as [|t titles IH]; intros seen seen' H;
    cbn [first_seen]; [reflexivity|].
  rewrite <- (H t). destruct (existsb (String.eqb t) seen).
  - now apply IH.
  - f_equal. apply IH. intros t'. cbn [existsb]. now rewrite H.
Qed.

Lemma sum_rows_keys title_idx payable_idx rows : forall song_totals song_totals',
  sum_rows title_idx payable_idx rows song_totals = Ok song_totals' ->
  map fst song_totals'
  = map fst song_totals
    ++ first_seen (map fst song_totals)
         (map fst (row_entries title_idx payable_idx rows)).
Proof.
  induction rows as [|row rows IH]; intros d d' Hsum.
  - injection Hsum as <-. cbn. now rewrite app_nil_r.
  - apply sum_rows_step in Hsum. apply IH in Hsum. rewrite Hsum.
    unfold row_entries. cbn [omap list_omap].
    fold (row_entries title_idx payable_idx rows).
    destruct (row_entry title_idx payable_idx row) as [[t a]|]; [|reflexivity].
    cbn [map fst first_seen]. rewrite dict_keys_set.
    destruct (existsb (String.eqb t) (map fst d)) eqn:E; [reflexivity|].
    rewrite <- app_assoc. cbn [app]. do 2 f_equal.
    apply first_seen_ext. intros t'. rewrite existsb_app. cbn [existsb].
    now rewrite orb_false_r, orb_comm.
Qed.

Lemma first_seen_fresh seen titles t :
  In t (first_seen seen titles) -> existsb (String.eqb t) seen = false.
Proof.
  revert seen. induction titles as [|t' titles IH]; intros seen; cbn [first_seen];
    [intros []|].
  destruct (existsb (String.eqb t') seen) eqn:E; [apply IH|].
  intros [->|Hin]; [exact E|].
  apply IH in Hin. cbn [existsb] in Hin. now apply orb_false_iff in Hin.
Qed.

Lemma first_seen_nodup seen titles : List.NoDup (first_seen seen titles).
Proof.
  revert seen. induction titles as [|t titles IH]; intros seen; cbn [first_seen];
    [constructor|].
  destruct (existsb (String.eqb t) seen); [apply IH|].
  constructor; [|apply IH].
  intros Hin%first_seen_fresh. cbn [existsb] in Hin.
  now rewrite String.eqb_refl in Hin.
Qed.

Lemma first_seen_member seen titles t :
  In t (first_seen seen titles)
  <-> In t titles /\ existsb (String.eqb t) seen = false.
Proof.
  revert seen. induction titles as [|t' titles IH]; intros seen; cbn [first_seen].
  - split; [intros []|intros [[] _]].
  - destruct (existsb (String.eqb t') seen) eqn:E.
    + rewrite IH. split; [intros [H1 H2]; split; [now right|exact H2]|].
      intros [[->|H1] H2]; [congruence|easy].
    + cbn [In]. rewrite IH. cbn [existsb]. split.
      * intros [->|[H1 H2]]; [split; [now left|exact E]|].
        apply orb_false_iff in H2 as [_ H2]. split; [now right|exact H2].
      * intros [[->|H1] H2]; [now left|].
        destruct (String.eqb t t') eqn:E'.
        -- left. apply String.eqb_eq in E'. now subst.
        -- right. split; [exact H1|exact H2].
Qed.

End Aggregate.

(** ** Python strings: normal forms *)

Section NormalForms.

Lemma rstrip_idem s : PyStr.rstrip (PyStr.rstrip s) = PyStr.rstrip s.
Proof.
  induction s as [|c s IH]; [reflexivity|].
  rewrite (rstrip_cons c s).
  destruct (PyStr.rstrip s) as [|c' r] eqn:E.
  - destruct (PyStr.is_space c) eqn:Ec; [reflexivity|].
    rewrite rstrip_cons. cbn [PyStr.rstrip]. now rewrite Ec.
  - rewrite rstrip_cons, IH. reflexivity.
Qed.

(** A string that does not begin with white space keeps its first
    character under [rstrip]. *)
Lemma lstrip_rstrip_head c s :
  PyStr.is_space c = false ->
  PyStr.lstrip (PyStr.rstrip (String c s)) = PyStr.rstrip (String c s).
Proof.
  intros Hc. rewrite rstrip_cons.
  destruct (PyStr.rstrip s); rewrite ?Hc; cbn [PyStr.lstrip]; now rewrite Hc.
Qed.

Lemma lstrip_head s :
  PyStr.lstrip s = EmptyString
  \/ exists c s', PyStr.lstrip s = String c s' /\ PyStr.is_space c = false.
Proof.
  induction s as [|c s IH]; cbn [PyStr.lstrip]; [now left|].
  destruct (PyStr.is_space c) eqn:E; [exact IH|]. right. eauto.
Qed.

Lemma strip_idem s : PyStr.strip (PyStr.strip s) = PyStr.strip s.
Proof.
  unfold PyStr.strip.
  destruct (lstrip_head s) as [->|(c & s' & -> & Hc)]; [reflexivity|].
  rewrite (lstrip_rstrip_head c s' Hc). apply rstrip_idem.
Qed.

End NormalForms.

(** X3. The total a successful read holds for a title is the sum, added
    from [0.0] in row order, of the amounts of the rows entered under that
    title (rows with a true title cell and a payable cell that converts to
    a float, keyed by the trimmed title); a title no row is entered under
    has no total. *)
Theorem read_totals_are_row_sums sh tc pc song_totals :
  read_royalty_statement sh tc pc = Ok song_totals ->
  exists title_idx payable_idx,
    column_indices sh tc pc = Ok (title_idx, payable_idx)
    /\ forall title,
      Dict.get song_totals title 0
      = float_sum 0 (amounts_of title
                       (row_entries title_idx payable_idx (data_rows sh)))
      /\ (In title (map fst song_totals)
          <-> In title (map fst (row_entries title_idx payable_idx
                                   (data_rows sh)))).
Proof.
  intros (ti & pi & Hidx & Hsum)%read_royalty_statement_inv.
  exists ti, pi. split; [exact Hidx|]. intros title. split.
  - now rewrite (sum_rows_totals _ _ _ _ _ Hsum title).
  - rewrite (sum_rows_keys _ _ _ _ _ Hsum). cbn [map app].
    rewrite first_seen_member. cbn [existsb]. tauto.
Qed.

(** X4. The titles of the aggregate are pairwise different, stand in the
    order in which they first occur in the rows, and are trimmed. *)
Theorem read_titles_distinct_ordered_trimmed sh tc pc song_totals :
  read_royalty_statement sh tc pc = Ok song_totals ->
  List.NoDup (map fst song_totals)
  /\ (exists title_idx payable_idx,
        column_indices sh tc pc = Ok (title_idx, payable_idx)
        /\ map fst song_totals
           = first_seen [] (map fst (row_entries title_idx payable_idx
                                       (data_rows sh))))
  /\ Forall (fun title => PyStr.strip title = title) (map fst song_totals).
Proof.
  intros (ti & pi & Hidx & Hsum)%read_royalty_statement_inv.
  pose proof (sum_rows_keys _ _ _ _ _ Hsum) as Hkeys. cbn [map app] in Hkeys.
  split; [rewrite Hkeys; apply first_seen_nodup|].
  split; [exists ti, pi; split; [exact Hidx|exact Hkeys]|].
  rewrite Hkeys. apply List.Forall_forall. intros title Hin.
  apply first_seen_member in Hin as [Hin _].
  apply in_map_iff in Hin as ([t a] & <- & Hin). cbn [fst].
  unfold row_entries in Hin. apply list_elem_of_In, list_elem_of_omap in Hin
    as (row & _ & Hrow).
  unfold row_entry in Hrow.
  destruct (nth_error row ti) as [tcell|]; [|discriminate].
  destruct (nth_error row pi) as [pcell|]; [|discriminate].
  destruct (Cell.truthy tcell && Cell.is_not_none pcell); [|discriminate].
  destruct (Cell.float pcell); [|discriminate..].
  injection Hrow as <- <-. apply strip_idem.
Qed.

Lemma read_auto_detect_finds_columns_witness :
  read_royalty_statement_file (Some More.no_title_sheet) None None
  = Err (Exception (ValueError could_not_auto_detect_title_column))
  /\ Exception (ValueError could_not_auto_detect_title_column)
     <> Exception (ValueError could_not_find_required_columns).
Proof.
  split; [vm_compute; reflexivity|].
  apply (read_auto_detect_finds_columns (Some More.no_title_sheet)).
  vm_compute. reflexivity.
Defined.

Lemma read_rectangular_no_index_error_witness :
  read_royalty_statement More.huge_sheet None None
  = Err (Exception OverflowError)
  /\ Exception OverflowError <> Exception IndexError.
Proof.
  split; [vm_compute; reflexivity|].
  apply (read_rectangular_no_index_error More.huge_sheet None None).
  - repeat constructor.
  - vm_compute. reflexivity.
Defined.

Lemma read_totals_are_row_sums_witness :
  exists title_idx payable_idx,
    column_indices More.mixed_sheet None None = Ok (title_idx, payable_idx)
    /\ forall title,
      Dict.get More.mixed_totals title 0
      = float_sum 0 (amounts_of title
                       (row_entries title_idx payable_idx
                          (data_rows More.mixed_sheet)))
      /\ (In title (map fst More.mixed_totals)
          <-> In title (map fst (row_entries title_idx payable_idx
                                   (data_rows More.mixed_sheet)))).
Proof.
  apply (read_totals_are_row_sums More.mixed_sheet None None More.mixed_totals).
  vm_compute. reflexivity.
Defined.

Lemma read_titles_distinct_ordered_trimmed_witness :
  List.NoDup (map fst More.mixed_totals)
  /\ (exists title_idx payable_idx,
        column_indices More.mixed_sheet None None = Ok (title_idx, payable_idx)
        /\ map fst More.mixed_totals
           = first_seen [] (map fst (row_entries title_idx payable_idx
                                       (data_rows More.mixed_sheet))))
  /\ Forall (fun title => PyStr.strip title = title) (map fst More.mixed_totals).
Proof.
  apply (read_titles_distinct_ordered_trimmed
           More.mixed_sheet None None More.mixed_totals).
  vm_compute. reflexivity.
Defined.

(** ** Statement Ingestor: explicit column names *)

Section Overrides.




Lemma lstrip_length s : String.length (PyStr.lstrip s) <= String.length s.
Proof.
  induction s as [|c s IH]; cbn [PyStr.lstrip]; [reflexivity|].
  destruct (PyStr.is_space c); cbn [String.length]; lia.
Qed.

Lemma lstrip_length_eq s :
  String.length (PyStr.lstrip s) = String.length s -> PyStr.lstrip s = s.
Proof.
  destruct s as [|c s]; cbn [PyStr.lstrip]; [reflexivity|].
  destruct (PyStr.is_space c); [|reflexivity].
  pose proof (lstrip_length s). cbn [String.length]. lia.
Qed.

Lemma rstrip_length s : String.length (PyStr.rstrip s) <= String.length s.
Proof.
  induction s as [|c s IH]; [reflexivity|]. rewrite rstrip_cons.
  destruct (PyStr.rstrip s); [destruct (PyStr.is_space c)|];
    cbn [String.length] in *; lia.
Qed.

Lemma rstrip_length_eq s :
  String.length (PyStr.rstrip s) = String.length s -> PyStr.rstrip s = s.
Proof.
  induction s as [|c s IH]; [reflexivity|]. rewrite rstrip_cons.
  pose proof (rstrip_length s) as Hle.
  destruct (PyStr.rstrip s) as [|c' r] eqn:E.
  - destruct (PyStr.is_space c); cbn [String.length] in *; [lia|].
    intros H. destruct s; [reflexivity|cbn [String.length] in H; lia].
  - cbn [String.length] in *. intros H. f_equal. apply IH. lia.
Qed.

Lemma strip_length_eq s :
  String.length (PyStr.strip s) = String.length s -> PyStr.strip s = s.
Proof.
  unfold PyStr.strip. intros H.
  pose proof (lstrip_length s). pose proof (rstrip_length (PyStr.lstrip s)).
  rewrite (rstrip_length_eq (PyStr.lstrip s)) by lia.
  apply lstrip_length_eq. lia.
Qed.








End Overrides.



(** ** Song Matcher: what is returned *)

Section MatcherResult.

Lemma exact_match_in work items title amount :
  exact_match work items = Some (title, amount) -> In (title, amount) items.
Proof.
  rewrite exact_match_find. intros H. now apply find_some in H.
Qed.

Lemma partial_match_in work items title amount :
  partial_match work items = Some (title, amount) -> In (title, amount) items.
Proof.
  rewrite partial_match_find. intros H. now apply find_some in H.
Qed.

Lemma contains_empty hay : PyStr.contains "" hay = true.
Proof. destruct hay; reflexivity. Qed.

Lemma find_matching_song_some_in song_title song_totals title total :
  _find_matching_song song_title song_totals = (Some title, total) ->
  In (title, total) song_totals.
Proof.
  unfold _find_matching_song.
  destruct (exact_match _ song_totals) as [[t a]|] eqn:Ee.
  { intros [= <- <-]. now apply exact_match_in in Ee. }
  destruct (partial_match _ song_totals) as [[t a]|] eqn:Ep; [|discriminate].
  intros [= <- <-]. now apply partial_match_in in Ep.
Qed.

End MatcherResult.

(** X6. What the Song Matcher returns is an entry of the aggregate, title
    and total together; and when it returns [(None, 0.0)] no entry passes
    either stage. *)
Theorem find_matching_song_returns_entry song_title song_totals :
  match _find_matching_song song_title song_totals with
  | (Some title, total) => In (title, total) song_totals
  | (None, total) =>
      total = 0%float
      /\ forall item, In item song_totals ->
           Spec.exact_stage (PyStr.strip (PyStr.lower song_title)) item = false
           /\ Spec.substring_stage (PyStr.strip (PyStr.lower song_title)) item
              = false
  end.
Proof.
  unfold _find_matching_song.
  destruct (exact_match _ song_totals) as [[t a]|] eqn:Ee.
  { now apply exact_match_in in Ee. }
  destruct (partial_match _ song_totals) as [[t a]|] eqn:Ep.
  { now apply partial_match_in in Ep. }
  split; [reflexivity|]. intros item Hin.
  rewrite exact_match_find in Ee. rewrite partial_match_find in Ep.
  split; [eapply find_none in Ee|eapply find_none in Ep]; eassumption.
Qed.

(** X7. A work whose title is empty or blank is matched whenever the
    statement has an entry: to the first entry with a blank title if
    there is one, otherwise to the first entry of the statement, since the
    empty string is contained in every title. *)
Theorem blank_work_title_matches_first_entry song_title title total rest :
  PyStr.strip (PyStr.lower song_title) = "" ->
  _find_matching_song song_title ((title, total) :: rest)
  = match exact_match "" ((title, total) :: rest) with
    | Some (title', total') => (Some title', total')
    | None => (Some title, total)
    end.
Proof.
  intros Hblank. unfold _find_matching_song. rewrite Hblank.
  destruct (exact_match "" ((title, total) :: rest)) as [[t a]|]; [reflexivity|].
  cbn [partial_match]. now rewrite contains_empty.
Qed.

Lemma blank_work_title_matches_first_entry_witness :
  _find_matching_song "   " [ ("Home", 1%float); ("Away", 2%float) ]
  = (Some "Home", 1%float).
Proof.
  apply (blank_work_title_matches_first_entry "   " "Home" 1%float
           [ ("Away", 2%float) ]).
  reflexivity.
Defined.

(** ** Payment Calculator: provenance and entry points *)

(** X8. Every payment record returned is made of the inputs: its song
    title is the title of a Work of the record, its payee, royalty type
    and percentage are those of one streaming RoyaltyShare of the record,
    its total is the total of an entry of the statement aggregate with a
    non-empty title, and its role is the role of the first Party whose
    name equals the payee up to case, or "Unknown". *)
Theorem payments_come_from_inputs contract_data statement tc pc payments :
  calculate_payments_from_data contract_data statement tc pc = Ok payments ->
  exists song_totals,
    read_royalty_statement statement tc pc = Ok song_totals
    /\ Forall
         (fun p =>
            exists work share title,
              In work (ContractData.works contract_data)
              /\ In share (ContractData.royalty_shares contract_data)
              /\ is_streaming share = true
              /\ In (title, RoyaltyPayment.total_royalty p) song_totals
              /\ title <> ""
              /\ RoyaltyPayment.song_title p = Work.title work
              /\ RoyaltyPayment.party_name p = RoyaltyShare.party_name share
              /\ RoyaltyPayment.royalty_type p = RoyaltyShare.royalty_type share
              /\ RoyaltyPayment.percentage p = RoyaltyShare.percentage share
              /\ RoyaltyPayment.role p
                 = role_of (ContractData.parties contract_data)
                     (RoyaltyShare.party_name share))
         payments.
Proof.
  intros (song_totals & Hread & ->)%calculate_payments_from_data_inv.
  exists song_totals. split; [exact Hread|].
  apply List.Forall_forall. intros p Hin.
  apply in_flat_map in Hin as (work & Hwork & Hin).
  apply filter_In in Hwork as [Hwork Hpays].
  unfold payments_of_work in Hin. apply in_map_iff in Hin as (share & <- & Hshare).
  apply filter_In in Hshare as [Hshare Hstream].
  unfold matcher_pays in Hpays.
  destruct (_find_matching_song (Work.title work) song_totals) as [[t|] a] eqn:Hfind;
    cbn [fst snd matching_truthy] in *; [|discriminate].
  apply find_matching_song_some_in in Hfind.
  exists work, share, t. repeat split; try assumption.
  intros ->. discriminate.
Qed.

Lemma payments_come_from_inputs_witness :
  exists song_totals,
    read_royalty_statement Ex.home_sheet None None = Ok song_totals
    /\ Forall
         (fun p =>
            exists work share title,
              In work (ContractData.works Ex.home_contract)
              /\ In share (ContractData.royalty_shares Ex.home_contract)
              /\ is_streaming share = true
              /\ In (title, RoyaltyPayment.total_royalty p) song_totals
              /\ title <> ""
              /\ RoyaltyPayment.song_title p = Work.title work
              /\ RoyaltyPayment.party_name p = RoyaltyShare.party_name share
              /\ RoyaltyPayment.royalty_type p = RoyaltyShare.royalty_type share
              /\ RoyaltyPayment.percentage p = RoyaltyShare.percentage share
              /\ RoyaltyPayment.role p
                 = role_of (ContractData.parties Ex.home_contract)
                     (RoyaltyShare.party_name share))
         [ RoyaltyPayment.mk "Home" "Alice" "Unknown" "streaming" 60 1000 600;
           RoyaltyPayment.mk "Home" "Bob" "Unknown" "streaming" 40 1000 400 ].
Proof.
  apply (payments_come_from_inputs Ex.home_contract Ex.home_sheet None None).
  vm_compute. reflexivity.
Defined.



(** ** Contract Merger: what is kept *)

Section MergeKeeps.

Variable globals : list string.

Lemma merge_parties_sub ps : forall m s m' s',
  merge_parties globals ps m s = Ok (m', s') ->
  exists kept,
    m' = m ++ kept /\ kept `sublist_of` ps
    /\ Forall (fun p => Spec.party_key p <> "") kept.
Proof.
  induction ps as [|p ps IH]; intros m s m' s' Hm.
  - injection Hm as <- <-. exists []. rewrite app_nil_r.
    split; [reflexivity|]. split; [constructor|constructor].
  - cbn [merge_parties] in Hm.
    destruct (normalize_name globals (Party.name p)) as [k|e] eqn:Hn;
      [|discriminate].
    cbn [mbind result_bind] in Hm.
    pose proof (normalize_name_ok _ _ _ Hn) as ->.
    fold (Spec.party_key p) in Hm.
    destruct (PyStr.truthy (Spec.party_key p)
              && negb (bool_decide (Spec.party_key p ∈ s))) eqn:Hc.
    + apply andb_true_iff in Hc as [Ht _]. apply truthy_nonempty in Ht.
      apply IH in Hm as (kept & -> & Hsub & Hne).
      exists (p :: kept). rewrite <- app_assoc.
      split; [reflexivity|]. split; [now apply sublist_skip|].
      now constructor.
    + apply IH in Hm as (kept & -> & Hsub & Hne).
      exists kept. split; [reflexivity|]. split; [now apply sublist_cons|exact Hne].
Qed.

Lemma merge_works_sub ws : forall m s m' s',
  merge_works ws m s = (m', s') ->
  exists kept,
    m' = m ++ kept /\ kept `sublist_of` ws
    /\ Forall (fun w => Spec.work_key w <> "") kept.
Proof.
  induction ws as [|w ws IH]; intros m s m' s' Hm.
  - injection Hm as <- <-. exists []. rewrite app_nil_r.
    split; [reflexivity|]. split; [constructor|constructor].
  - cbn [merge_works] in Hm. fold (Spec.work_key w) in Hm.
    destruct (PyStr.truthy (Spec.work_key w)
              && negb (bool_decide (Spec.work_key w ∈ s))) eqn:Hc.
    + apply andb_true_iff in Hc as [Ht _]. apply truthy_nonempty in Ht.
      apply IH in Hm as (kept & -> & Hsub & Hne).
      exists (w :: kept). rewrite <- app_assoc.
      split; [reflexivity|]. split; [now apply sublist_skip|].
      now constructor.
    + apply IH in Hm as (kept & -> & Hsub & Hne).
      exists kept. split; [reflexivity|]. split; [now apply sublist_cons|exact Hne].
Qed.

Lemma merge_shares_sub rs : forall m s m' s',
  merge_shares globals rs m s = Ok (m', s') ->
  exists kept, m' = m ++ kept /\ kept `sublist_of` rs.
Proof.
  induction rs as [|r rs IH]; intros m s m' s' Hm.
  - injection Hm as <- <-. exists []. rewrite app_nil_r.
    split; [reflexivity|constructor].
  - cbn [merge_shares] in Hm.
    destruct (normalize_name globals (RoyaltyShare.party_name r)) as [n|e];
      [|discriminate].
    cbn [mbind result_bind] in Hm.
    destruct (negb _) in Hm.
    + apply IH in Hm as (kept & -> & Hsub).
      exists (r :: kept). rewrite <- app_assoc.
      split; [reflexivity|now apply sublist_skip].
    + apply IH in Hm as (kept & -> & Hsub).
      exists kept. split; [reflexivity|now apply sublist_cons].
Qed.

Lemma merge_loop_sub cs : forall st st',
  merge_loop globals cs st = Ok st' ->
  exists kp kw kr,
    merged_parties st' = merged_parties st ++ kp
    /\ merged_works st' = merged_works st ++ kw
    /\ merged_royalty_shares st' = merged_royalty_shares st ++ kr
    /\ kp `sublist_of` all_parties cs
    /\ kw `sublist_of` all_works cs
    /\ kr `sublist_of` all_shares cs
    /\ Forall (fun p => Spec.party_key p <> "") kp
    /\ Forall (fun w => Spec.work_key w <> "") kw.
Proof.
  induction cs as [|c cs IH]; intros st st' Hm.
  - injection Hm as <-. exists [], [], []. rewrite !app_nil_r.
    repeat split; constructor.
  - cbn [merge_loop] in Hm.
    destruct (merge_contract globals st c) as [st1|e] eqn:E1; [|discriminate].
    cbn [mbind result_bind] in Hm.
    apply IH in Hm as (kp & kw & kr & Hp & Hw & Hr & Sp & Sw & Sr & Np & Nw).
    unfold merge_contract in E1.
    destruct (merge_parties globals (ContractData.parties c)
                (merged_parties st) (seen_parties st)) as [[mp sp]|e] eqn:Ep;
      [|discriminate].
    cbn [mbind result_bind] in E1.
    destruct (merge_works (ContractData.works c) (merged_works st) (seen_works st))
      as [mw sw] eqn:Ew.
    destruct (merge_shares globals (ContractData.royalty_shares c)
                (merged_royalty_shares st) (seen_shares st)) as [[mr sr]|e] eqn:Er;
      [|discriminate].
    cbn [mbind result_bind] in E1. injection E1 as <-.
    cbn [merged_parties merged_works merged_royalty_shares] in Hp, Hw, Hr.
    apply merge_parties_sub in Ep as (kp1 & -> & Sp1 & Np1).
    apply merge_works_sub in Ew as (kw1 & -> & Sw1 & Nw1).
    apply merge_shares_sub in Er as (kr1 & -> & Sr1).
    exists (kp1 ++ kp), (kw1 ++ kw), (kr1 ++ kr).
    rewrite Hp, Hw, Hr, <- !app_assoc.
    unfold all_parties, all_works, all_shares. cbn [flat_map].
    repeat split; try reflexivity; try (now apply sublist_app);
      now apply Forall_app.
Qed.

End MergeKeeps.

(** X11. The merge neither invents nor reorders: the merged parties are a
    subsequence of the parties of the input records taken in input order,
    and so are the merged works and the merged royalty shares; no merged
    party has an empty normalized name and no merged work an empty
    normalized title. *)
Theorem merged_lists_are_subsequences globals contracts merged :
  merge_contracts globals contracts = Ok merged ->
  ContractData.parties merged `sublist_of` all_parties contracts
  /\ ContractData.works merged `sublist_of` all_works contracts
  /\ ContractData.royalty_shares merged `sublist_of` all_shares contracts
  /\ Forall (fun p => Spec.party_key p <> "") (ContractData.parties merged)
  /\ Forall (fun w => Spec.work_key w <> "") (ContractData.works merged).
Proof.
  intros (st & Hloop & -> & -> & ->)%merge_contracts_inv.
  apply merge_loop_sub in Hloop
    as (kp & kw & kr & -> & -> & -> & Sp & Sw & Sr & Np & Nw).
  cbn [merge_init merged_parties merged_works merged_royalty_shares app].
  repeat split; assumption.
Qed.

Lemma merged_lists_are_subsequences_witness :
  ContractData.parties Ex.jane_merged
    `sublist_of` all_parties [ Ex.jane_contract; Ex.jane_territories ]
  /\ ContractData.works Ex.jane_merged
       `sublist_of` all_works [ Ex.jane_contract; Ex.jane_territories ]
  /\ ContractData.royalty_shares Ex.jane_merged
       `sublist_of` all_shares [ Ex.jane_contract; Ex.jane_territories ]
  /\ Forall (fun p => Spec.party_key p <> "") (ContractData.parties Ex.jane_merged)
  /\ Forall (fun w => Spec.work_key w <> "") (ContractData.works Ex.jane_merged).
Proof.
  apply (merged_lists_are_subsequences globals_with_re
           [ Ex.jane_contract; Ex.jane_territories ]).
  vm_compute. reflexivity.
Defined.

(** The normalized names of the merged parties are the non-empty
    normalized names of the input parties; likewise for the works. *)
Lemma merged_party_keys globals contracts merged k :
  merge_contracts globals contracts = Ok merged ->
  k ∈ Spec.party_key <$> ContractData.parties merged
  <-> k <> "" /\ exists p, In p (all_parties contracts) /\ Spec.party_key p = k.
Proof.
  intros Hmerge.
  pose proof Hmerge as (st & Hloop & Hp & _)%merge_contracts_inv.
  pose proof Hloop as (kp & _ & _ & Hkp & _ & _ & Sp & _ & _ & Np & _)%merge_loop_sub.
  apply merge_loop_spec in Hloop as ([_ Hps _ _ _ _] & _ & Hall);
    [|apply merge_inv_init].
  rewrite Hp. cbn [merge_init merged_parties app] in Hkp.
  split.
  - intros (q & -> & Hq)%list_elem_of_fmap. rewrite Hkp in Hq.
    split.
    + rewrite Forall_forall in Np. now apply Np.
    + exists q. split; [|reflexivity].
      apply list_elem_of_In. eapply elem_of_sublist; eassumption.
  - intros (Hne & p & Hin & <-).
    apply in_flat_map in Hin as (c & Hc & Hin).
    apply list_elem_of_In in Hc, Hin.
    destruct (Hall c Hc) as [[Hcov _ _] _].
    destruct (Hcov p Hin) as [He|Hs]; [contradiction|]. now apply Hps.
Qed.

Lemma merged_work_keys globals contracts merged k :
  merge_contracts globals contracts = Ok merged ->
  k ∈ Spec.work_key <$> ContractData.works merged
  <-> k <> "" /\ exists w, In w (all_works contracts) /\ Spec.work_key w = k.
Proof.
  intros Hmerge.
  pose proof Hmerge as (st & Hloop & _ & Hw & _)%merge_contracts_inv.
  pose proof Hloop as (_ & kw & _ & _ & Hkw & _ & _ & Sw & _ & _ & Nw)%merge_loop_sub.
  apply merge_loop_spec in Hloop as ([_ _ _ Hws _ _] & _ & Hall);
    [|apply merge_inv_init].
  rewrite Hw. cbn [merge_init merged_works app] in Hkw.
  split.
  - intros (q & -> & Hq)%list_elem_of_fmap. rewrite Hkw in Hq.
    split.
    + rewrite Forall_forall in Nw. now apply Nw.
    + exists q. split; [|reflexivity].
      apply list_elem_of_In. eapply elem_of_sublist; eassumption.
  - intros (Hne & w & Hin & <-).
    apply in_flat_map in Hin as (c & Hc & Hin).
    apply list_elem_of_In in Hc, Hin.
    destruct (Hall c Hc) as [[_ Hcov _] _].
    destruct (Hcov w Hin) as [He|Hs]; [contradiction|]. now apply Hws.
Qed.

(** X12. Which normalized party names and which normalized work titles
    the merged record holds does not depend on the order of the input
    records: two merges of the same records in different orders hold the
    same names and the same titles. *)
Theorem merged_keys_do_not_depend_on_order
    globals contracts contracts' merged merged' :
  Permutation contracts contracts' ->
  merge_contracts globals contracts = Ok merged ->
  merge_contracts globals contracts' = Ok merged' ->
  forall k,
    (k ∈ Spec.party_key <$> ContractData.parties merged
     <-> k ∈ Spec.party_key <$> ContractData.parties merged')
    /\ (k ∈ Spec.work_key <$> ContractData.works merged
        <-> k ∈ Spec.work_key <$> ContractData.works merged').
Proof.
  intros Hperm Hm Hm' k.
  rewrite (merged_party_keys _ _ _ k Hm), (merged_party_keys _ _ _ k Hm').
  rewrite (merged_work_keys _ _ _ k Hm), (merged_work_keys _ _ _ k Hm').
  assert (Hin : forall (A : Type) (f : ContractData.t -> list A) x,
             In x (flat_map f contracts) <-> In x (flat_map f contracts')).
  { intros A f x. rewrite !in_flat_map.
    split; intros (c & Hc & Hx); exists c; split; try exact Hx.
    - eapply Permutation_in; eassumption.
    - eapply Permutation_in; [symmetry|]; eassumption. }
  unfold all_parties, all_works.
  split; split; intros (Hne & x & Hx & Hk); (split; [exact Hne|]);
    exists x; (split; [|exact Hk]); now apply Hin.
Qed.

Lemma merged_keys_do_not_depend_on_order_witness :
  ("jane doe" ∈ Spec.party_key <$> ContractData.parties Ex.jane_merged
   <-> "jane doe" ∈ Spec.party_key <$> ContractData.parties More.jane_merged_rev)
  /\ ("jane doe" ∈ Spec.work_key <$> ContractData.works Ex.jane_merged
      <-> "jane doe" ∈ Spec.work_key <$> ContractData.works More.jane_merged_rev).
Proof.
  apply (merged_keys_do_not_depend_on_order globals_with_re
           [ Ex.jane_contract; Ex.jane_territories ]
           [ Ex.jane_territories; Ex.jane_contract ]
           Ex.jane_merged More.jane_merged_rev).
  - apply perm_swap.
  - vm_compute. reflexivity.
  - vm_compute. reflexivity.
Defined.

(** ** Contract Merger: the first occurrence wins *)

Section FirstWins.

Variable globals : list string.

Lemma find_app_first {A} (f : A -> bool) l1 l2 :
  List.find f (l1 ++ l2)
  = match List.find f l1 with Some x => Some x | None => List.find f l2 end.
Proof.
  induction l1 as [|x l1 IH]; cbn [app List.find]; [reflexivity|].
  now destruct (f x).
Qed.

Lemma merge_parties_first ps : forall processed m s m' s',
  merge_parties globals ps m s = Ok (m', s') ->
  (forall p, In p processed -> Spec.party_key p = "" \/ Spec.party_key p ∈ s) ->
  (forall q, In q m -> List.find (same_party_key q) processed = Some q) ->
  (forall p, In p (processed ++ ps) ->
     Spec.party_key p = "" \/ Spec.party_key p ∈ s')
  /\ (forall q, In q m' -> List.find (same_party_key q) (processed ++ ps) = Some q).
Proof.
  induction ps as [|p ps IH]; intros processed m s m' s' Hm Hcov Hfirst.
  - injection Hm as <- <-. rewrite app_nil_r. split; assumption.
  - cbn [merge_parties] in Hm.
    destruct (normalize_name globals (Party.name p)) as [k|e] eqn:Hn;
      [|discriminate].
    cbn [mbind result_bind] in Hm.
    pose proof (normalize_name_ok _ _ _ Hn) as ->.
    fold (Spec.party_key p) in Hm.
    replace (processed ++ p :: ps) with ((processed ++ [ p ]) ++ ps)
      by (now rewrite <- app_assoc).
    destruct (PyStr.truthy (Spec.party_key p)
              && negb (bool_decide (Spec.party_key p ∈ s))) eqn:Hc.
    + apply andb_true_iff in Hc as [Ht Hns].
      apply truthy_nonempty in Ht.
      apply negb_true_iff, bool_decide_eq_false in Hns.
      eapply IH; [exact Hm| |].
      * intros p0 [Hp0|[<-|[]]]%in_app_or.
        -- destruct (Hcov p0 Hp0) as [He|Hs]; [now left|right].
           now apply elem_of_union_l.
        -- right. apply elem_of_union_r, elem_of_singleton. reflexivity.
      * intros q [Hq|[<-|[]]]%in_app_or; rewrite find_app_first.
        -- now rewrite (Hfirst q Hq).
        -- destruct (List.find (same_party_key p) processed) as [p0|] eqn:Ef.
           ++ apply find_some in Ef as [Hp0 Heq].
              apply String.eqb_eq in Heq.
              destruct (Hcov p0 Hp0) as [He|Hs]; congruence.
           ++ cbn [List.find]. unfold same_party_key.
              now rewrite String.eqb_refl.
    + eapply IH; [exact Hm| |].
      * intros p0 [Hp0|[<-|[]]]%in_app_or; [auto|].
        apply andb_false_iff in Hc as [Hc|Hc].
        -- left. destruct (Spec.party_key p); [reflexivity|discriminate].
        -- right. now apply negb_false_iff, bool_decide_eq_true in Hc.
      * intros q Hq. rewrite find_app_first. now rewrite (Hfirst q Hq).
Qed.

Lemma merge_loop_first cs : forall processed st st',
  merge_loop globals cs st = Ok st' ->
  (forall p, In p processed ->
     Spec.party_key p = "" \/ Spec.party_key p ∈ seen_parties st) ->
  (forall q, In q (merged_parties st) ->
     List.find (same_party_key q) processed = Some q) ->
  forall q, In q (merged_parties st') ->
    List.find (same_party_key q) (processed ++ all_parties cs) = Some q.
Proof.
  induction cs as [|c cs IH]; intros processed st st' Hm Hcov Hfirst.
  - injection Hm as <-. unfold all_parties. cbn [flat_map].
    now rewrite app_nil_r.
  - cbn [merge_loop] in Hm.
    destruct (merge_contract globals st c) as [st1|e] eqn:E1; [|discriminate].
    cbn [mbind result_bind] in Hm.
    unfold all_parties. cbn [flat_map]. rewrite app_assoc.
    unfold merge_contract in E1.
    destruct (merge_parties globals (ContractData.parties c)
                (merged_parties st) (seen_parties st)) as [[mp sp]|e] eqn:Ep;
      [|discriminate].
    cbn [mbind result_bind] in E1.
    destruct (merge_works _ _ _) as [mw sw].
    destruct (merge_shares _ _ _ _) as [[mr sr]|e]; [|discriminate].
    cbn [mbind result_bind] in E1. injection E1 as <-.
    apply (merge_parties_first _ processed) in Ep as [Hcov1 Hfirst1];
      [|assumption..].
    eapply IH; [exact Hm|exact Hcov1|exact Hfirst1].
Qed.

Lemma merge_works_first ws : forall processed m s m' s',
  merge_works ws m s = (m', s') ->
  (forall w, In w processed -> Spec.work_key w = "" \/ Spec.work_key w ∈ s) ->
  (forall q, In q m -> List.find (same_work_key q) processed = Some q) ->
  (forall w, In w (processed ++ ws) ->
     Spec.work_key w = "" \/ Spec.work_key w ∈ s')
  /\ (forall q, In q m' -> List.find (same_work_key q) (processed ++ ws) = Some q).
Proof.
  induction ws as [|w ws IH]; intros processed m s m' s' Hm Hcov Hfirst.
  - injection Hm as <- <-. rewrite app_nil_r. split; assumption.
  - cbn [merge_works] in Hm. fold (Spec.work_key w) in Hm.
    replace (processed ++ w :: ws) with ((processed ++ [ w ]) ++ ws)
      by (now rewrite <- app_assoc).
    destruct (PyStr.truthy (Spec.work_key w)
              && negb (bool_decide (Spec.work_key w ∈ s))) eqn:Hc.
    + apply andb_true_iff in Hc as [Ht Hns].
      apply truthy_nonempty in Ht.
      apply negb_true_iff, bool_decide_eq_false in Hns.
      eapply IH; [exact Hm| |].
      * intros w0 [Hw0|[<-|[]]]%in_app_or.
        -- destruct (Hcov w0 Hw0) as [He|Hs]; [now left|right].
           now apply elem_of_union_l.
        -- right. apply elem_of_union_r, elem_of_singleton. reflexivity.
      * intros q [Hq|[<-|[]]]%in_app_or; rewrite find_app_first.
        -- now rewrite (Hfirst q Hq).
        -- destruct (List.find (same_work_key w) processed) as [w0|] eqn:Ef.
           ++ apply find_some in Ef as [Hw0 Heq].
              apply String.eqb_eq in Heq.
              destruct (Hcov w0 Hw0) as [He|Hs]; congruence.
           ++ cbn [List.find]. unfold same_work_key.
              now rewrite String.eqb_refl.
    + eapply IH; [exact Hm| |].
      * intros w0 [Hw0|[<-|[]]]%in_app_or; [auto|].
        apply andb_false_iff in Hc as [Hc|Hc].
        -- left. destruct (Spec.work_key w); [reflexivity|discriminate].
        -- right. now apply negb_false_iff, bool_decide_eq_true in Hc.
      * intros q Hq. rewrite find_app_first. now rewrite (Hfirst q Hq).
Qed.

Lemma merge_loop_works_first cs : forall processed st st',
  merge_loop globals cs st = Ok st' ->
  (forall w, In w processed ->
     Spec.work_key w = "" \/ Spec.work_key w ∈ seen_works st) ->
  (forall q, In q (merged_works st) ->
     List.find (same_work_key q) processed = Some q) ->
  forall q, In q (merged_works st') ->
    List.find (same_work_key q) (processed ++ all_works cs) = Some q.
Proof.
  induction cs as [|c cs IH]; intros processed st st' Hm Hcov Hfirst.
  - injection Hm as <-. unfold all_works. cbn [flat_map].
    now rewrite app_nil_r.
  - cbn [merge_loop] in Hm.
    destruct (merge_contract globals st c) as [st1|e] eqn:E1; [|discriminate].
    cbn [mbind result_bind] in Hm.
    unfold all_works. cbn [flat_map]. rewrite app_assoc.
    unfold merge_contract in E1.
    destruct (merge_parties globals (ContractData.parties c)
                (merged_parties st) (seen_parties st)) as [[mp sp]|e];
      [|discriminate].
    cbn [mbind result_bind] in E1.
    destruct (merge_works _ _ _) as [mw sw] eqn:Ew.
    destruct (merge_shares _ _ _ _) as [[mr sr]|e]; [|discriminate].
    cbn [mbind result_bind] in E1. injection E1 as <-.
    apply (merge_works_first _ processed) in Ew as [Hcov1 Hfirst1];
      [|assumption..].
    eapply IH; [exact Hm|exact Hcov1|exact Hfirst1].
Qed.

End FirstWins.

(** With [re] bound, every merged party is the first party, in the order
    of the input records, that has its normalized name. *)
Lemma merged_party_is_first_occurrence globals contracts merged q :
  merge_contracts globals contracts = Ok merged ->
  In q (ContractData.parties merged) ->
  List.find (same_party_key q) (all_parties contracts) = Some q.
Proof.
  intros (st & Hloop & -> & _)%merge_contracts_inv Hq.
  apply (merge_loop_first globals contracts [] merge_init st Hloop);
    [intros p []|intros p []|exact Hq].
Qed.

(** X13. First occurrence wins for works: every merged work is the first
    work, in the order of the input records, that has its trimmed
    lower-cased title; a later work with the same normalized title,
    whatever its spelling and type, is not in the merged list in its
    place. *)
Theorem merged_work_is_first_occurrence globals contracts merged q :
  merge_contracts globals contracts = Ok merged ->
  In q (ContractData.works merged) ->
  List.find (same_work_key q) (all_works contracts) = Some q.
Proof.
  intros (st & Hloop & _ & -> & _)%merge_contracts_inv Hq.
  apply (merge_loop_works_first globals contracts [] merge_init st Hloop);
    [intros w []|intros w []|exact Hq].
Qed.

Lemma merged_work_is_first_occurrence_witness :
  merged_lists (merge_contracts module_globals
                  [ More.works_contract; More.album_contract ])
  = Ok ([], [ Ex.home; More.away ], [])
  /\ same_work_key Ex.home More.home_album = true
  /\ List.find (same_work_key Ex.home)
       (all_works [ More.works_contract; More.album_contract ]) = Some Ex.home.
Proof.
  split; [vm_compute; reflexivity|]. split; [vm_compute; reflexivity|].
  apply (merged_work_is_first_occurrence module_globals
           [ More.works_contract; More.album_contract ]
           (ContractData.mk [] [ Ex.home; More.away ] [] (Some "") None)).
  - vm_compute. reflexivity.
  - left. reflexivity.
Defined.

(** ** The shipped module, end to end *)

Lemma parsed_contracts_in parses c :
  In (Ok c) parses -> In c (parsed_contracts parses).
Proof.
  induction parses as [|[data|e] parses IH]; cbn [parsed_contracts];
    [intros []| |].
  - intros [[= ->]|Hin]; [now left|right; auto].
  - intros [[=]|Hin]. auto.
Qed.

(** X10. In the module as shipped [calculate_payments_from_contracts]
    raises [NameError] as soon as one contract that parsed holds a party
    with a non-empty name, whatever the other contracts and the
    statement are: the merge runs before the statement is read. *)
Theorem calculate_payments_from_contracts_name_error parses statement c p :
  In (Ok c) parses ->
  In p (ContractData.parties c) ->
  Party.name p <> "" ->
  calculate_payments_from_contracts module_globals parses statement
  = Err (NameError "re").
Proof.
  intros Hc Hp Hname. unfold calculate_payments_from_contracts.
  apply parsed_contracts_in in Hc.
  destruct (parsed_contracts parses) as [|c0 cs] eqn:E; [destruct Hc|].
  rewrite (merge_contracts_named_party module_globals (c0 :: cs) c p);
    [reflexivity|reflexivity|now apply list_elem_of_In..|now apply truthy_nonempty].
Qed.

Lemma calculate_payments_from_contracts_name_error_witness :
  calculate_payments_from_contracts module_globals
    [ Err (Exception IndexError); Ok Ex.jane_contract ] Ex.home_sheet
  = Err (NameError "re").
Proof.
  apply (calculate_payments_from_contracts_name_error
           [ Err (Exception IndexError); Ok Ex.jane_contract ] Ex.home_sheet
           Ex.jane_contract Ex.jane).
  - right. left. reflexivity.
  - left. reflexivity.
  - discriminate.
Defined.

(** ** Contract Merger: merging a merged record *)

Section MergeAgain.

Variable globals : list string.

Lemma merge_parties_fresh ps : forall m s,
  (forall p, p ∈ ps ->
     normalize_name globals (Party.name p) = Ok (Spec.party_key p)) ->
  Forall (fun p => Spec.party_key p <> "") ps ->
  NoDup (Spec.party_key <$> ps) ->
  (forall p, p ∈ ps -> Spec.party_key p ∉ s) ->
  exists s', merge_parties globals ps m s = Ok (m ++ ps, s').
Proof.
  induction ps as [|p ps IH]; intros m s Hok Hne Hnd Hfresh.
  - exists s. cbn. now rewrite app_nil_r.
  - cbn [merge_parties]. rewrite (Hok p) by apply list_elem_of_here.
    cbn [mbind result_bind].
    apply Forall_cons in Hne as [Hp Hne].
    rewrite fmap_cons in Hnd. apply NoDup_cons in Hnd as [Hnotin Hnd].
    rewrite (proj2 (truthy_nonempty _) Hp).
    rewrite bool_decide_eq_false_2 by (apply Hfresh, list_elem_of_here).
    cbn [andb negb].
    destruct (IH (m ++ [ p ]) (s ∪ {[Spec.party_key p]})) as [s' Hs'].
    + intros q Hq. apply Hok. now apply list_elem_of_further.
    + exact Hne.
    + exact Hnd.
    + intros q Hq [Hin|Hin%elem_of_singleton]%elem_of_union.
      * eapply Hfresh; [apply list_elem_of_further|]; eassumption.
      * apply Hnotin. rewrite <- Hin. now apply list_elem_of_fmap_2.
    + exists s'. rewrite Hs'. now rewrite <- app_assoc.
Qed.

Lemma merge_works_fresh ws : forall m s,
  Forall (fun w => Spec.work_key w <> "") ws ->
  NoDup (Spec.work_key <$> ws) ->
  (forall w, w ∈ ws -> Spec.work_key w ∉ s) ->
  exists s', merge_works ws m s = (m ++ ws, s').
Proof.
  induction ws as [|w ws IH]; intros m s Hne Hnd Hfresh.
  - exists s. cbn. now rewrite app_nil_r.
  - cbn [merge_works]. fold (Spec.work_key w).
    apply Forall_cons in Hne as [Hw Hne].
    rewrite fmap_cons in Hnd. apply NoDup_cons in Hnd as [Hnotin Hnd].
    rewrite (proj2 (truthy_nonempty _) Hw).
    rewrite bool_decide_eq_false_2 by (apply Hfresh, list_elem_of_here).
    cbn [andb negb].
    destruct (IH (m ++ [ w ]) (s ∪ {[Spec.work_key w]})) as [s' Hs'].
    + exact Hne.
    + exact Hnd.
    + intros q Hq [Hin|Hin%elem_of_singleton]%elem_of_union.
      * eapply Hfresh; [apply list_elem_of_further|]; eassumption.
      * apply Hnotin. rewrite <- Hin. now apply list_elem_of_fmap_2.
    + exists s'. rewrite Hs'. now rewrite <- app_assoc.
Qed.

Lemma distinct_keys_head_fresh s k keys :
  distinct_keys (s ++ k :: keys) -> key_in k s = false.
Proof.
  intros Hd. unfold key_in.
  destruct (existsb (key_eq k) s) eqn:E; [|reflexivity].
  apply existsb_exists in E as (ki & Hin & Heq).
  apply list_elem_of_In, list_elem_of_lookup in Hin as [i Hi].
  assert (i < length s) as Hlt by (now apply lookup_lt_Some in Hi).
  rewrite (Hd i (length s) ki k Hlt) in Heq; [discriminate| |].
  - now rewrite lookup_app_l.
  - rewrite lookup_app_r by lia. now rewrite Nat.sub_diag.
Qed.

Lemma merge_shares_fresh rs : forall m s,
  (forall r, r ∈ rs ->
     normalize_name globals (RoyaltyShare.party_name r)
     = Ok (Spec.normalize (RoyaltyShare.party_name r))) ->
  distinct_keys (s ++ (code_share_key <$> rs)) ->
  exists s', merge_shares globals rs m s = Ok (m ++ rs, s').
Proof.
  induction rs as [|r rs IH]; intros m s Hok Hd.
  - exists s. cbn. now rewrite app_nil_r.
  - cbn [merge_shares]. rewrite (Hok r) by apply list_elem_of_here.
    cbn [mbind result_bind]. fold (code_share_key r).
    rewrite fmap_cons in Hd.
    rewrite (distinct_keys_head_fresh _ _ _ Hd). cbn [negb].
    destruct (IH (m ++ [ r ]) (s ++ [ code_share_key r ])) as [s' Hs'].
    + intros q Hq. apply Hok. now apply list_elem_of_further.
    + now rewrite <- app_assoc.
    + exists s'. rewrite Hs'. now rewrite <- app_assoc.
Qed.

End MergeAgain.

(** X14. Merging the record a merge returned changes nothing: the merge
    of that single record returns its parties, works and royalty shares
    as they are. *)
Theorem merge_of_merged_record globals contracts merged :
  merge_contracts globals contracts = Ok merged ->
  merged_lists (merge_contracts globals [ merged ])
  = Ok (ContractData.parties merged, ContractData.works merged,
        ContractData.royalty_shares merged).
Proof.
  intros Hmerge.
  pose proof Hmerge as (st & Hloop & Hp & Hw & Hr)%merge_contracts_inv.
  pose proof Hloop
    as (kp & kw & kr & Hkp & Hkw & Hkr & Sp & Sw & Sr & Np & Nw)%merge_loop_sub.
  cbn [merge_init merged_parties merged_works merged_royalty_shares app]
    in Hkp, Hkw, Hkr.
  apply merge_loop_spec in Hloop as ([Hpn _ Hwn _ Hss Hsd] & _ & Hall);
    [|apply merge_inv_init].
  destruct (merge_parties_fresh globals (ContractData.parties merged) [] ∅)
    as [sp Ep].
  { intros p Hin. rewrite Hp, Hkp in Hin.
    eapply elem_of_sublist in Hin; [|exact Sp].
    apply list_elem_of_In, in_flat_map in Hin as (c & Hc & Hin).
    apply list_elem_of_In in Hc, Hin.
    destruct (Hall c Hc) as [_ [Hok _]]. now apply Hok. }
  { now rewrite Hp, Hkp. }
  { now rewrite Hp. }
  { intros p _. apply not_elem_of_empty. }
  destruct (merge_works_fresh (ContractData.works merged) [] ∅) as [sw Ew].
  { now rewrite Hw, Hkw. }
  { now rewrite Hw. }
  { intros w _. apply not_elem_of_empty. }
  destruct (merge_shares_fresh globals (ContractData.royalty_shares merged) [] [])
    as [sr Er].
  { intros r Hin. rewrite Hr, Hkr in Hin.
    eapply elem_of_sublist in Hin; [|exact Sr].
    apply list_elem_of_In, in_flat_map in Hin as (c & Hc & Hin).
    apply list_elem_of_In in Hc, Hin.
    destruct (Hall c Hc) as [_ [_ Hok]]. now apply Hok. }
  { cbn [app]. now rewrite Hr, <- Hss. }
  unfold merged_lists, merge_contracts. cbn [merge_loop].
  unfold merge_contract. cbn [merge_init merged_parties merged_works
    merged_royalty_shares seen_parties seen_works seen_shares].
  rewrite Ep. cbn [mbind result_bind]. rewrite Ew, Er.
  reflexivity.
Qed.

Lemma merge_of_merged_record_witness :
  merged_lists (merge_contracts globals_with_re [ Ex.jane_merged ])
  = Ok (ContractData.parties Ex.jane_merged, ContractData.works Ex.jane_merged,
        ContractData.royalty_shares Ex.jane_merged).
Proof.
  apply (merge_of_merged_record globals_with_re
           [ Ex.jane_contract; Ex.jane_territories ]).
  vm_compute. reflexivity.
Defined.

(** ** Reports: grouping by payee *)

Section Groups.

Lemma group_add_keys groups payment :
  map fst (group_add groups payment)
  = if existsb (String.eqb (RoyaltyPayment.party_name payment)) (map fst groups)
    then map fst groups
    else map fst groups ++ [ RoyaltyPayment.party_name payment ].
Proof.
  induction groups as [|[k l] groups IH]; cbn [group_add map fst existsb];
    [reflexivity|].
  rewrite (String.eqb_sym (RoyaltyPayment.party_name payment) k).
  destruct (String.eqb k (RoyaltyPayment.party_name payment));
    cbn [map fst orb]; [reflexivity|].
  rewrite IH. now destruct (existsb _ (map fst groups)).
Qed.

Lemma group_get_add groups payment name :
  group_get (group_add groups payment) name
  = if String.eqb name (RoyaltyPayment.party_name payment)
    then group_get groups name ++ [ payment ]
    else group_get groups name.
Proof.
  induction groups as [|[k l] groups IH]; cbn [group_add group_get].
  - rewrite (String.eqb_sym name). now destruct (String.eqb _ name).
  - destruct (String.eqb k (RoyaltyPayment.party_name payment)) eqn:Ek;
      cbn [group_get].
    + apply String.eqb_eq in Ek. subst k.
      rewrite (String.eqb_sym name).
      now destruct (String.eqb (RoyaltyPayment.party_name payment) name).
    + destruct (String.eqb k name) eqn:En; [|exact IH].
      apply String.eqb_eq in En. subst k.
      now rewrite Ek.
Qed.

Lemma payments_of_snoc name payments payment :
  payments_of name (payments ++ [ payment ])
  = payments_of name payments
    ++ (if String.eqb name (RoyaltyPayment.party_name payment)
        then [ payment ] else []).
Proof. unfold payments_of. now rewrite List.filter_app. Qed.

Lemma party_groups_snoc payments payment :
  party_groups (payments ++ [ payment ])
  = group_add (party_groups payments) payment.
Proof. unfold party_groups. now rewrite fold_left_app. Qed.

Lemma party_groups_get payments name :
  group_get (party_groups payments) name = payments_of name payments.
Proof.
  induction payments as [|payment payments IH] using rev_ind; [reflexivity|].
  rewrite party_groups_snoc, group_get_add, payments_of_snoc, IH.
  destruct (String.eqb name _); [reflexivity|now rewrite app_nil_r].
Qed.

Lemma party_groups_keys payments :
  List.NoDup (map fst (party_groups payments))
  /\ forall name,
       In name (map fst (party_groups payments))
       <-> In name (map RoyaltyPayment.party_name payments).
Proof.
  induction payments as [|payment payments [IHn IHk]] using rev_ind.
  - split; [constructor|reflexivity].
  - rewrite party_groups_snoc, group_add_keys, map_app. cbn [map].
    destruct (existsb _ (map fst (party_groups payments))) eqn:E.
    + split; [exact IHn|]. intros name. rewrite in_app_iff, IHk. cbn [In].
      apply existsb_exists in E as (k & Hk & ->%String.eqb_eq).
      apply IHk in Hk. split; [now left|]. intros [H|[<-|[]]]; assumption.
    + split.
      * apply NoDup_ListNoDup, NoDup_app. split; [now apply NoDup_ListNoDup|].
        split; [|apply NoDup_singleton].
        intros k Hk ->%list_elem_of_singleton.
        apply list_elem_of_In in Hk.
        assert (existsb (String.eqb (RoyaltyPayment.party_name payment))
                  (map fst (party_groups payments)) = true) as Hex
          by (apply existsb_exists; eexists; split;
              [exact Hk|apply String.eqb_refl]).
        congruence.
      * intros name. rewrite !in_app_iff, IHk. reflexivity.
Qed.

Lemma group_get_in groups name group :
  List.NoDup (map fst groups) -> In (name, group) groups ->
  group_get groups name = group.
Proof.
  induction groups as [|[k l] groups IH]; cbn [map fst group_get];
    intros Hnd Hin; [destruct Hin|].
  apply List.NoDup_cons_iff in Hnd as [Hk Hnd].
  destruct Hin as [[= -> ->]|Hin]; [now rewrite String.eqb_refl|].
  destruct (String.eqb k name) eqn:E; [|auto].
  apply String.eqb_eq in E. subst k. exfalso. apply Hk.
  apply in_map_iff. exists (name, group). split; [reflexivity|exact Hin].
Qed.

End Groups.

(** X15. The grouping of the report puts every payment in exactly one
    group, that of its payee: the group names are pairwise different, the
    group of a name holds the payments of that payee in their order and
    is never empty, every payee has a group, and the number of groups is
    the number of contributors of the summary metrics. *)
Theorem party_groups_partition payments :
  List.NoDup (map fst (party_groups payments))
  /\ (forall name group,
        In (name, group) (party_groups payments) ->
        group = payments_of name payments /\ group <> [])
  /\ (forall p, In p payments ->
        In (RoyaltyPayment.party_name p, 
            payments_of (RoyaltyPayment.party_name p) payments)
          (party_groups payments))
  /\ length (party_groups payments) = unique_payees payments.
Proof.
  destruct (party_groups_keys payments) as [Hnd Hkeys].
  assert (Hgroup : forall name group,
             In (name, group) (party_groups payments) ->
             group = payments_of name payments).
  { intros name group Hin. rewrite <- (party_groups_get payments name).
    symmetry. now apply group_get_in. }
  split; [exact Hnd|]. split; [|split].
  - intros name group Hin. split; [now apply Hgroup|].
    rewrite (Hgroup name group Hin).
    assert (In name (map fst (party_groups payments))) as Hk
      by (apply in_map_iff; exists (name, group); split; [reflexivity|exact Hin]).
    apply Hkeys, in_map_iff in Hk as (p & Hp & Hin').
    intros Hnil.
    assert (In p (payments_of name payments)) as Hp'.
    { apply filter_In. split; [exact Hin'|]. rewrite Hp. apply String.eqb_refl. }
    rewrite Hnil in Hp'. destruct Hp'.
  - intros p Hp.
    assert (In (RoyaltyPayment.party_name p) (map fst (party_groups payments)))
      as Hk by (apply Hkeys, in_map; exact Hp).
    apply in_map_iff in Hk as ([k l] & Hfst & Hin). cbn [fst] in Hfst. subst k.
    now rewrite <- (Hgroup _ _ Hin).
  - unfold unique_payees.
    rewrite <- (length_map fst (party_groups payments)).
    rewrite <- (size_list_to_set (C := gset string)
                  (map fst (party_groups payments)))
      by (now apply NoDup_ListNoDup).
    f_equal. apply set_eq. intros name.
    rewrite !elem_of_list_to_set, !list_elem_of_In. apply Hkeys.
Qed.

Lemma party_groups_partition_witness :
  In ("Alice", [ More.pay "Home" "Alice" 1; More.pay "Away" "Alice" 4 ])
    (party_groups More.three_payments)
  /\ length (party_groups More.three_payments) = 2.
Proof.
  destruct (party_groups_partition More.three_payments) as (_ & _ & Hin & Hlen).
  split.
  - apply (Hin (More.pay "Home" "Alice" 1)). left. reflexivity.
  - rewrite Hlen. vm_compute. reflexivity.
Defined.

(** ** Reports: totals by payee *)

Section PayeeTotals.

Lemma payee_add_keys totals payment :
  map fst (payee_add totals payment)
  = if existsb (String.eqb (RoyaltyPayment.party_name payment)) (map fst totals)
    then map fst totals
    else map fst totals ++ [ RoyaltyPayment.party_name payment ].
Proof.
  induction totals as [|[k e] totals IH]; cbn [payee_add map fst existsb];
    [reflexivity|].
  rewrite (String.eqb_sym (RoyaltyPayment.party_name payment) k).
  destruct (String.eqb k (RoyaltyPayment.party_name payment));
    cbn [map fst orb]; [reflexivity|].
  rewrite IH. now destruct (existsb _ (map fst totals)).
Qed.

Lemma payee_totals_snoc payments payment :
  payee_totals (payments ++ [ payment ])
  = payee_add (payee_totals payments) payment.
Proof. unfold payee_totals. now rewrite fold_left_app. Qed.

Lemma payee_totals_keys payments :
  map fst (payee_totals payments) = map fst (party_groups payments).
Proof.
  induction payments as [|payment payments IH] using rev_ind; [reflexivity|].
  now rewrite payee_totals_snoc, party_groups_snoc, payee_add_keys,
    group_add_keys, IH.
Qed.

Lemma payee_get_add totals payment name :
  payee_get (payee_add totals payment) name
  = if String.eqb name (RoyaltyPayment.party_name payment)
    then Some
           match payee_get totals name with
           | Some data =>
               {| payee_role := payee_role data;
                  payee_total :=
                    (payee_total data + RoyaltyPayment.amount_to_pay payment)%float;
                  payee_details := payee_details data ++ [ payment ] |}
           | None =>
               {| payee_role := RoyaltyPayment.role payment;
                  payee_total := (0 + RoyaltyPayment.amount_to_pay payment)%float;
                  payee_details := [ payment ] |}
           end
    else payee_get totals name.
Proof.
  induction totals as [|[k e] totals IH]; cbn [payee_add payee_get].
  - rewrite (String.eqb_sym name). now destruct (String.eqb _ name).
  - destruct (String.eqb k (RoyaltyPayment.party_name payment)) eqn:Ek;
      cbn [payee_get].
    + apply String.eqb_eq in Ek. subst k.
      rewrite (String.eqb_sym name).
      now destruct (String.eqb (RoyaltyPayment.party_name payment) name).
    + destruct (String.eqb k name) eqn:En; [|exact IH].
      apply String.eqb_eq in En. subst k.
      now rewrite Ek.
Qed.

Lemma float_sum_snoc start amounts a :
  float_sum start (amounts ++ [ a ]) = (float_sum start amounts + a)%float.
Proof. unfold float_sum. now rewrite fold_left_app. Qed.

Lemma payee_totals_get payments name :
  match payee_get (payee_totals payments) name with
  | Some data => payee_entry_ok payments name data
  | None => payments_of name payments = []
  end.
Proof.
  induction payments as [|payment payments IH] using rev_ind; [reflexivity|].
  rewrite payee_totals_snoc, payee_get_add.
  destruct (String.eqb name (RoyaltyPayment.party_name payment)) eqn:E.
  - destruct (payee_get (payee_totals payments) name) as [data|].
    + destruct IH as (Hd & Ht & first & rest & Hf & Hr).
      unfold payee_entry_ok. rewrite payments_of_snoc, E. cbn [payee_details
        payee_total payee_role]. rewrite map_app. cbn [map].
      rewrite float_sum_snoc, Hd, Ht.
      split; [reflexivity|]. split; [reflexivity|].
      exists first, (rest ++ [ payment ]). rewrite Hf. split; [reflexivity|exact Hr].
    + unfold payee_entry_ok. rewrite payments_of_snoc, E, IH.
      cbn [payee_details payee_total payee_role app map].
      split; [reflexivity|]. split; [reflexivity|].
      exists payment, []. split; reflexivity.
  - destruct (payee_get (payee_totals payments) name) as [data|].
    + unfold payee_entry_ok in *. rewrite payments_of_snoc, E, app_nil_r.
      exact IH.
    + rewrite payments_of_snoc, E, app_nil_r. exact IH.
Qed.

Lemma payee_get_in totals name data :
  List.NoDup (map fst totals) -> In (name, data) totals ->
  payee_get totals name = Some data.
Proof.
  induction totals as [|[k e] totals IH]; cbn [map fst payee_get];
    intros Hnd Hin; [destruct Hin|].
  apply List.NoDup_cons_iff in Hnd as [Hk Hnd].
  destruct Hin as [[= -> ->]|Hin]; [now rewrite String.eqb_refl|].
  destruct (String.eqb k name) eqn:E; [|auto].
  apply String.eqb_eq in E. subst k. exfalso. apply Hk.
  apply in_map_iff. exists (name, data). split; [reflexivity|exact Hin].
Qed.

End PayeeTotals.

(** X16. In the payment summary the entry of a payee holds the payments
    of that payee in their order, as total their amounts added from [0.0]
    in that order, and as role the role of the first of them; the payees
    are those of the grouping of the report, in the same order. *)
Theorem payee_totals_entries payments :
  (forall name data,
      In (name, data) (payee_totals payments) ->
      payee_entry_ok payments name data)
  /\ map fst (payee_totals payments) = map fst (party_groups payments).
Proof.
  split; [|apply payee_totals_keys].
  intros name data Hin.
  pose proof (payee_totals_get payments name) as Hget.
  rewrite (payee_get_in _ _ data) in Hget; [exact Hget| |exact Hin].
  rewrite payee_totals_keys. apply party_groups_keys.
Qed.

Lemma payee_totals_entries_witness :
  payee_entry_ok More.three_payments "Alice"
    {| payee_role := "artist"; payee_total := 5;
       payee_details := [ More.pay "Home" "Alice" 1; More.pay "Away" "Alice" 4 ] |}.
Proof.
  apply (proj1 (payee_totals_entries More.three_payments)).
  vm_compute. left. reflexivity.
Defined.

(** ** The run over several contracts: no valid contracts *)

(** The exceptions of [calculate_payments_from_data]. *)
Lemma calculate_payments_from_data_err contract_data statement tc pc e :
  calculate_payments_from_data contract_data statement tc pc = Err e ->
  e = ValueError no_works_found
  \/ e = ValueError no_royalty_share_data_found
  \/ e = ValueError no_songs_found_in_statement
  \/ exists cause, e = Exception cause.
Proof.
  unfold calculate_payments_from_data.
  destruct (ContractData.works contract_data); [intros [= <-]; now left|].
  destruct (ContractData.royalty_shares contract_data);
    [intros [= <-]; right; now left|].
  unfold read_royalty_statement.
  destruct (read_body statement tc pc) as [song_totals|cause];
    cbn [mbind result_bind].
  - destruct song_totals; [intros [= <-]; right; right; now left|].
    now destruct (List.filter is_streaming _).
  - intros [= <-]. right; right; right. eauto.
Qed.

(** X17. [calculate_payments_from_contracts] raises "no valid contracts"
    exactly when no contract parsed: with at least one parsed contract its
    exceptions are those of the merge and of the calculation. *)
Theorem no_valid_contracts_iff_no_parse globals parses statement :
  calculate_payments_from_contracts globals parses statement
  = Err (ValueError no_valid_contracts)
  <-> parsed_contracts parses = [].
Proof.
  unfold calculate_payments_from_contracts. split.
  - destruct (parsed_contracts parses) as [|c cs]; [reflexivity|].
    destruct (merge_contracts globals (c :: cs)) as [merged|e] eqn:E;
      cbn [mbind result_bind].
    + intros Hcalc. apply calculate_payments_from_data_err in Hcalc
        as [H|[H|[H|[cause H]]]]; discriminate.
    + intros [= ->]. apply merge_contracts_err in E. discriminate.
  - now intros ->.
Qed.
